(** * website-share: the catalog loader, search, tag grouping, theme storage
      and the URL sanitizer, embedded from the TypeScript sources.

    JavaScript strings are modelled as [string] (byte strings holding the
    UTF-8 encoding of the text); JavaScript exceptions as the [Throw]
    branch of [completion]; JavaScript [Map] objects as insertion-ordered
    association lists; [localStorage] and the in-memory fallback map as
    [gmap string string], the former with a quota. *)

From Stdlib Require Import Ascii String NArith ZArith Lia.
From stdpp Require Import gmap strings list pretty.

Set Warnings "-clear-no-such-hyp,-register-all".

Open Scope string_scope.
Open Scope list_scope.

(** ** Completions: a JavaScript computation returns or throws *)

Inductive JSError : Type :=
| TypeError (message : string)
| DOMException (name : string).

Inductive completion (A : Type) : Type :=
| Normal (a : A)
| Throw (e : JSError).
Arguments Normal {A} a.
Arguments Throw {A} e.

Definition cbind {A B} (c : completion A) (k : A -> completion B) : completion B :=
  match c with
  | Normal a => k a
  | Throw e => Throw e
  end.

(** [try { c } catch { h }] *)
Definition try_catch {A} (c : completion A) (h : JSError -> completion A) : completion A :=
  match c with
  | Normal a => Normal a
  | Throw e => h e
  end.

(** [arr.forEach(body)] where the body updates a state and may throw. *)
Fixpoint forEach {A S} (body : A -> S -> completion S) (arr : list A) (s : S)
  : completion S :=
  match arr with
  | [] => Normal s
  | a :: rest => cbind (body a s) (forEach body rest)
  end.

(** ** src/types/index.ts *)

Inductive ContentType : Type := CT_text | CT_file.

Record SiteMetadata : Type := mkSite {
  id : Z;
  title : string;
  cover : string;
  url : string;
  tags : list string;
  description : string;
  content : option string;
  contentType : option ContentType
}.

Inductive ErrorType : Type := NETWORK_ERROR | PARSE_ERROR | VALIDATION_ERROR.

(** The run-time shape of a [DataLoadError] object: [field] is a property
    that may be absent. *)
Record DataLoadError : Type := mkError {
  type : ErrorType;
  field : option string;
  message : string
}.

(** ** JavaScript [Map<string, V>]: keys in insertion order *)

Definition JSMap (V : Type) : Type := list (string * V).

Fixpoint Map_has {V} (k : string) (m : JSMap V) : bool :=
  match m with
  | [] => false
  | (k', _) :: rest => if decide (k' = k) then true else Map_has k rest
  end.

Fixpoint Map_get {V} (k : string) (m : JSMap V) : option V :=
  match m with
  | [] => None
  | (k', v) :: rest => if decide (k' = k) then Some v else Map_get k rest
  end.

(** [m.set(k, v)]: an existing key keeps its position, a new key goes last. *)
Fixpoint Map_set {V} (k : string) (v : V) (m : JSMap V) : JSMap V :=
  match m with
  | [] => [(k, v)]
  | (k', v') :: rest =>
      if decide (k' = k) then (k', v) :: rest else (k', v') :: Map_set k v rest
  end.

Definition Map_keys {V} (m : JSMap V) : list string := m.*1.

(** ** SiteCardGrid.vue: [groupedSites] *)

Definition ALL_GROUP : string := "全部".

(** [site.tags && site.tags.length > 0 ? site.tags[0] : (nothing)] *)
Definition primaryTag (site : SiteMetadata) : option string :=
  match tags site with
  | [] => None
  | t :: _ => Some t
  end.

(** [groups.get(primaryTag)!.push(site)]: the array stored in the map is
    mutated in place, so the map's entry for the key sees the new element;
    [get] of an absent key yields [undefined] and the call throws. *)
Definition Map_get_push (k : string) (site : SiteMetadata)
  (groups : JSMap (list SiteMetadata)) : completion (JSMap (list SiteMetadata)) :=
  match Map_get k groups with
  | Some arr => Normal (Map_set k (arr ++ [site]) groups)
  | None => Throw (TypeError "Cannot read properties of undefined (reading 'push')")
  end.

Definition group_step (site : SiteMetadata) (groups : JSMap (list SiteMetadata))
  : completion (JSMap (list SiteMetadata)) :=
  match tags site with
  | primary :: _ =>
      let groups1 :=
        if negb (Map_has primary groups) then Map_set primary [] groups else groups in
      Map_get_push primary site groups1
  | [] => Normal groups
  end.

Definition groupedSites (sites : list SiteMetadata) (groupByTag : bool)
  : completion (JSMap (list SiteMetadata)) :=
  if negb groupByTag then Normal [(ALL_GROUP, sites)]
  else forEach group_step sites [].

(** The grouping as the specification words it: one group per distinct
    primary tag, in order of first appearance, each holding the entries
    with that primary tag in input order. *)
Fixpoint first_appearances (l : list string) : list string :=
  match l with
  | [] => []
  | t :: rest => t :: filter (fun t' => t' ≠ t) (first_appearances rest)
  end.

Definition has_primary (t : string) (site : SiteMetadata) : Prop :=
  primaryTag site = Some t.

#[global] Instance has_primary_dec t site : Decision (has_primary t site).
Proof. unfold has_primary. apply _. Defined.

Definition spec_group (sites : list SiteMetadata) : JSMap (list SiteMetadata) :=
  map (fun t => (t, filter (has_primary t) sites))
      (first_appearances (omap primaryTag sites)).

(** A map whose keys are [ks] and whose value at [k] is [g k]. *)
Definition keyed {V} (g : string -> V) (ks : list string) : JSMap V := map (fun k => (k, g k)) ks.

(** ** useSearch.ts: [searchSites] *)

Definition str_of_codes (l : list N) : string :=
  string_of_list_ascii (map ascii_of_N l).

(** The code points that [String.prototype.trim] removes (WhiteSpace and
    LineTerminator of ECMA-262), each as its UTF-8 byte sequence. *)
Definition js_whitespace : list (list N) :=
  [ [9]; [10]; [11]; [12]; [13]; [32];
    [194; 160];                                  (* U+00A0 *)
    [225; 154; 128];                             (* U+1680 *)
    [226; 128; 128]; [226; 128; 129]; [226; 128; 130]; [226; 128; 131];
    [226; 128; 132]; [226; 128; 133]; [226; 128; 134]; [226; 128; 135];
    [226; 128; 136]; [226; 128; 137]; [226; 128; 138];  (* U+2000..U+200A *)
    [226; 128; 168]; [226; 128; 169];            (* U+2028, U+2029 *)
    [226; 128; 175];                             (* U+202F *)
    [226; 129; 159];                             (* U+205F *)
    [227; 128; 128];                             (* U+3000 *)
    [239; 187; 191] ]%N.                         (* U+FEFF *)

Fixpoint strip_prefix (p s : list ascii) : option (list ascii) :=
  match p, s with
  | [], _ => Some s
  | a :: p', b :: s' => if decide (a = b) then strip_prefix p' s' else None
  | _ :: _, [] => None
  end.

Fixpoint strip_any (tokens : list (list ascii)) (s : list ascii) : option (list ascii) :=
  match tokens with
  | [] => None
  | t :: rest =>
      match strip_prefix t s with
      | Some s' => Some s'
      | None => strip_any rest s
      end
  end.

Fixpoint strip_all (fuel : nat) (tokens : list (list ascii)) (s : list ascii) : list ascii :=
  match fuel with
  | O => s
  | S fuel' =>
      match strip_any tokens s with
      | Some s' => strip_all fuel' tokens s'
      | None => s
      end
  end.

Definition whitespace_tokens : list (list ascii) := map (map ascii_of_N) js_whitespace.

Definition trimStart_bytes (s : list ascii) : list ascii :=
  strip_all (length s) whitespace_tokens s.

Definition trimEnd_bytes (s : list ascii) : list ascii :=
  rev (strip_all (length s) (map (fun t => rev (map ascii_of_N t)) js_whitespace) (rev s)).

(** [s.trim()] *)
Definition js_trim (s : string) : string :=
  string_of_list_ascii (trimEnd_bytes (trimStart_bytes (list_ascii_of_string s))).

(** A string made of white space and line terminators only. *)
Definition whitespace_only (s : string) : Prop :=
  exists ws, Forall (fun t => t ∈ whitespace_tokens) ws
             /\ s = string_of_list_ascii (concat ws).

(** [!s] for a string: the empty string is the only falsy one. *)
Definition str_falsy (s : string) : bool :=
  match s with
  | EmptyString => true
  | _ => false
  end.

Section Search.

(** [new Fuse(sites, FUSE_OPTIONS).search(q).map(r => r.item)]: the ranking
    of the fuse.js library, which the repository does not define. *)
Variable Fuse_search : list SiteMetadata -> string -> list SiteMetadata.

Definition searchSites (sites : list SiteMetadata) (query : string) : list SiteMetadata :=
  let trimmedQuery := js_trim query in
  if str_falsy trimmedQuery then sites
  else if Nat.eqb (length sites) 0 then []
  else Fuse_search sites trimmedQuery.

End Search.

(** ** utils/storage.ts *)

Definition THEME_PREFERENCE : string := "theme-preference".
Definition DISCLAIMER_CONFIRMED : string := "disclaimer-confirmed".

(** The browser's [localStorage]: either every access throws (disabled,
    private mode), or it is a string-to-string store with a quota.  The
    quota is kept per entry: [setItem] throws [QuotaExceededError] when
    the key and the value together are longer than [room]; what is
    already stored is not counted against it. *)
Inductive LocalStorage : Type :=
| LS_throws
| LS_items (room : N) (items : gmap string string).

Record StorageEnv : Type := mkEnv {
  localStorage : LocalStorage;
  memoryStorage : gmap string string
}.

Definition entry_size (k v : string) : N :=
  N.of_nat (String.length k + String.length v).

Definition LS_setItem (k v : string) (ls : LocalStorage) : completion LocalStorage :=
  match ls with
  | LS_throws => Throw (TypeError "localStorage is not available")
  | LS_items room m =>
      if (entry_size k v <=? room)%N then Normal (LS_items room (<[k := v]> m))
      else Throw (DOMException "QuotaExceededError")
  end.

Definition LS_removeItem (k : string) (ls : LocalStorage) : completion LocalStorage :=
  match ls with
  | LS_throws => Throw (TypeError "localStorage is not available")
  | LS_items room m => Normal (LS_items room (delete k m))
  end.

Definition LS_getItem (k : string) (ls : LocalStorage) : completion (option string) :=
  match ls with
  | LS_throws => Throw (TypeError "localStorage is not available")
  | LS_items _ m => Normal (m !! k)
  end.

(** Returns the answer and the store as the probe leaves it. *)
Definition isLocalStorageAvailable (ls : LocalStorage) : bool * LocalStorage :=
  let testKey := "__storage_test__" in
  match LS_setItem testKey testKey ls with
  | Normal ls1 =>
      match LS_removeItem testKey ls1 with
      | Normal ls2 => (true, ls2)
      | Throw _ => (false, ls1)
      end
  | Throw _ => (false, ls)
  end.

Definition safeGetItem (key : string) (env : StorageEnv) : option string * StorageEnv :=
  let '(avail, ls) := isLocalStorageAvailable (localStorage env) in
  let env' := mkEnv ls (memoryStorage env) in
  if avail then
    match LS_getItem key ls with
    | Normal v => (v, env')
    | Throw _ => (memoryStorage env !! key, env')
    end
  else (memoryStorage env !! key, env').

Definition getThemePreference (env : StorageEnv) : string * StorageEnv :=
  let '(value, env') := safeGetItem THEME_PREFERENCE env in
  match value with
  | Some v =>
      if bool_decide (v = "light") || bool_decide (v = "dark") || bool_decide (v = "system")
      then (v, env')
      else ("system", env')
  | None => ("system", env')
  end.

(** ** utils/dataLoader.ts *)

(** A parsed JSON value. The loader never inspects the value of a number,
    only its type. An object lists its properties in order; a property
    read returns the first binding of the name. *)
Inductive JSON : Type :=
| JNull
| JBool (b : bool)
| JNumber (n : Z)
| JString (s : string)
| JArray (items : list JSON)
| JObject (props : list (string * JSON)).

(** A JavaScript value read from parsed JSON: [None] is [undefined]. *)
Definition JSValue : Type := option JSON.

Inductive JSType : Type :=
| T_undefined | T_object | T_boolean | T_number | T_string.

Definition js_typeof (v : JSValue) : JSType :=
  match v with
  | None => T_undefined
  | Some JNull => T_object
  | Some (JBool _) => T_boolean
  | Some (JNumber _) => T_number
  | Some (JString _) => T_string
  | Some (JArray _) => T_object
  | Some (JObject _) => T_object
  end.

#[global] Instance JSType_eq_dec : EqDecision JSType.
Proof. solve_decision. Defined.

(** [!v] *)
Definition js_not (v : JSValue) : bool :=
  match v with
  | None => true
  | Some JNull => true
  | Some (JBool b) => negb b
  | Some (JNumber n) => Z.eqb n 0
  | Some (JString s) => str_falsy s
  | Some (JArray _) => false
  | Some (JObject _) => false
  end.

Fixpoint props_lookup (k : string) (props : list (string * JSON)) : JSValue :=
  match props with
  | [] => None
  | (k', v) :: rest => if decide (k' = k) then Some v else props_lookup k rest
  end.

(** [obj[k]] for the property names the loader reads ([config], [sites],
    [id], [title], ...): none of them is an array index or [length], so
    an array has no such property. *)
Definition js_get (obj : JSValue) (k : string) : JSValue :=
  match obj with
  | Some (JObject props) => props_lookup k props
  | _ => None
  end.

Definition Array_isArray (v : JSValue) : bool :=
  match v with
  | Some (JArray _) => true
  | _ => false
  end.

Record ValidationResult : Type := mkResult {
  valid : bool;
  error : option string
}.

Definition invalid (msg : string) : ValidationResult := mkResult false (Some msg).
Definition is_valid : ValidationResult := mkResult true None.

Definition is_string (v : JSValue) : bool := bool_decide (js_typeof v = T_string).

(** [v === undefined] *)
Definition is_undefined (v : JSValue) : bool :=
  match v with
  | None => true
  | Some _ => false
  end.

(** [v === s] for a string literal [s] *)
Definition is_the_string (v : JSValue) (s : string) : bool :=
  match v with
  | Some (JString s') => bool_decide (s' = s)
  | _ => false
  end.

(** The double-quote character, as a one-character string. *)
Definition dquote : string := String (ascii_of_nat 34) EmptyString.

(** The [for (const field of requiredStringFields)] loop. *)
Fixpoint check_string_fields (siteObj : JSValue) (fields : list string)
  : option ValidationResult :=
  match fields with
  | [] => None
  | f :: rest =>
      if negb (is_string (js_get siteObj f))
      then Some (invalid ("字段 " +:+ f +:+ " 必须是字符串"))
      else check_string_fields siteObj rest
  end.

Definition validateSiteMetadata (site : JSValue) : ValidationResult :=
  if js_not site || negb (bool_decide (js_typeof site = T_object))
  then invalid "网站数据必须是对象"
  else if negb (bool_decide (js_typeof (js_get site "id") = T_number))
  then invalid "字段 id 必须是数字"
  else
    match check_string_fields site ["title"; "cover"; "url"; "description"] with
    | Some r => r
    | None =>
        match js_get site "tags" with
        | Some (JArray ts) =>
            if negb (forallb (fun tag => is_string (Some tag)) ts)
            then invalid "字段 tags 中的每个元素必须是字符串"
            else if negb (is_undefined (js_get site "content"))
                    && negb (is_string (js_get site "content"))
            then invalid "字段 content 必须是字符串"
            else if negb (is_undefined (js_get site "contentType"))
                    && negb (is_the_string (js_get site "contentType") "text")
                    && negb (is_the_string (js_get site "contentType") "file")
            then invalid ("字段 contentType 必须是 " +:+ dquote +:+ "text" +:+ dquote
                          +:+ " 或 " +:+ dquote +:+ "file" +:+ dquote)
            else is_valid
        | _ => invalid "字段 tags 必须是数组"
        end
    end.

Definition validateSiteConfig (config : JSValue) : ValidationResult :=
  if js_not config || negb (bool_decide (js_typeof config = T_object))
  then invalid "配置数据必须是对象"
  else if negb (is_string (js_get config "siteTitle"))
  then invalid "字段 siteTitle 必须是字符串"
  else if negb (is_string (js_get config "adminContact"))
  then invalid "字段 adminContact 必须是字符串"
  else is_valid.

(** [`${e}`] for an optional string property. *)
Definition str_of_opt (e : option string) : string :=
  match e with
  | Some s => s
  | None => "undefined"
  end.

(** The [for (let i = 0; i < sites.length; i++)] loop, from index [i]. *)
Fixpoint validate_sites_from (i : nat) (sites : list JSON) : ValidationResult :=
  match sites with
  | [] => is_valid
  | s :: rest =>
      let siteResult := validateSiteMetadata (Some s) in
      if negb (valid siteResult)
      then invalid ("网站 " +:+ pretty i +:+ " 验证失败: " +:+ str_of_opt (error siteResult))
      else validate_sites_from (S i) rest
  end.

Definition validateSiteDataFile (data : JSValue) : ValidationResult :=
  if js_not data || negb (bool_decide (js_typeof data = T_object))
  then invalid "数据文件必须是对象"
  else
    let configResult := validateSiteConfig (js_get data "config") in
    if negb (valid configResult)
    then invalid ("配置验证失败: " +:+ str_of_opt (error configResult))
    else
      match js_get data "sites" with
      | Some (JArray sites) => validate_sites_from 0 sites
      | _ => invalid "sites 必须是数组"
      end.

Definition createDataLoadError (type : ErrorType) (message : string)
  (field : option string) : DataLoadError :=
  match type, field with
  | VALIDATION_ERROR, Some f =>
      if str_falsy f then mkError type None message else mkError type (Some f) message
  | _, _ => mkError type None message
  end.

(** What [fetch] and [response.json()] can do. *)
Inductive Thrown : Type :=
| ThrownError (message : string)     (* [err instanceof Error] *)
| ThrownOther.

Inductive JsonOutcome : Type :=
| JsonResolves (data : JSON)
| JsonRejects.

Record Response : Type := mkResponse {
  ok : bool;
  status : nat;
  statusText : string;
  json : JsonOutcome
}.

Inductive FetchOutcome : Type :=
| FetchRejects (err : Thrown)
| FetchResolves (response : Response).

Inductive LoadResult : Type :=
| LoadSuccess (data : JSON)
| LoadFailure (error : DataLoadError).

Definition DEFAULT_DATA_PATH : string := "/data/sites.json".

Definition str_default (e : option string) (d : string) : string :=
  match e with
  | Some s => if str_falsy s then d else s
  | None => d
  end.

Definition loadSiteData (fetch : string -> FetchOutcome) (path : string) : LoadResult :=
  match fetch path with
  | FetchResolves response =>
      if negb (ok response)
      then LoadFailure (createDataLoadError NETWORK_ERROR
             ("HTTP 错误: " +:+ pretty (status response) +:+ " " +:+ statusText response) None)
      else
        match json response with
        | JsonRejects =>
            LoadFailure (createDataLoadError PARSE_ERROR "JSON 解析失败，数据格式不正确" None)
        | JsonResolves data =>
            let validationResult := validateSiteDataFile (Some data) in
            if negb (valid validationResult)
            then LoadFailure (createDataLoadError VALIDATION_ERROR
                   (str_default (error validationResult) "数据验证失败") (Some "data"))
            else LoadSuccess data
        end
  | FetchRejects err =>
      let message :=
        match err with
        | ThrownError m => m
        | ThrownOther => "未知网络错误"
        end in
      LoadFailure (createDataLoadError NETWORK_ERROR ("网络请求失败: " +:+ message) None)
  end.

Definition getErrorMessage (error : DataLoadError) : string :=
  match type error with
  | NETWORK_ERROR => "数据加载失败，请检查网络连接"
  | PARSE_ERROR => "数据格式错误，请联系管理员"
  | VALIDATION_ERROR => "数据验证失败: " +:+ str_of_opt (field error)
  end.

(** ** App.vue: the refs written by [loadData] *)

Record AppState : Type := mkApp {
  siteConfig : JSValue;
  sites : JSValue;
  isLoading : bool;
  errorMessage : option string
}.

(** The refs as [App.vue] creates them, before the first load. *)
Definition initial_state : AppState :=
  mkApp (Some (JObject [("siteTitle", JString "网站收藏"); ("adminContact", JString "")]))
        (Some (JArray [])) true None.

(** [loadData] up to the [await]. *)
Definition loadData_begin (st : AppState) : AppState :=
  mkApp (siteConfig st) (sites st) true None.

(** [loadData] from the [await] on, given what [loadSiteData] resolved to. *)
Definition loadData_resume (result : LoadResult) (st : AppState) : AppState :=
  let st1 :=
    match result with
    | LoadSuccess data =>
        mkApp (js_get (Some data) "config") (js_get (Some data) "sites")
              (isLoading st) (errorMessage st)
    | LoadFailure error =>
        mkApp (siteConfig st) (sites st) (isLoading st) (Some (getErrorMessage error))
    end in
  mkApp (siteConfig st1) (sites st1) false (errorMessage st1).

Definition loadData (fetch : string -> FetchOutcome) (st : AppState) : AppState :=
  loadData_resume (loadSiteData fetch DEFAULT_DATA_PATH) (loadData_begin st).


(** ** utils/storage.ts: writing and removing *)

Definition safeSetItem (key value : string) (env : StorageEnv) : bool * StorageEnv :=
  let '(avail, ls) := isLocalStorageAvailable (localStorage env) in
  if avail then
    match LS_setItem key value ls with
    | Normal ls' => (true, mkEnv ls' (memoryStorage env))
    | Throw _ => (false, mkEnv ls (<[key := value]> (memoryStorage env)))
    end
  else (false, mkEnv ls (<[key := value]> (memoryStorage env))).

Definition safeRemoveItem (key : string) (env : StorageEnv) : StorageEnv :=
  let '(avail, ls) := isLocalStorageAvailable (localStorage env) in
  if avail then
    match LS_removeItem key ls with
    | Normal ls' => mkEnv ls' (delete key (memoryStorage env))
    | Throw _ => mkEnv ls (delete key (memoryStorage env))
    end
  else mkEnv ls (delete key (memoryStorage env)).

Definition setThemePreference (theme : string) (env : StorageEnv) : StorageEnv :=
  (safeSetItem THEME_PREFERENCE theme env).2.

Definition isDisclaimerConfirmed (env : StorageEnv) : bool * StorageEnv :=
  let '(value, env') := safeGetItem DISCLAIMER_CONFIRMED env in
  (bool_decide (value = Some "true"), env').

(** [String(b)] *)
Definition String_of_bool (b : bool) : string := if b then "true" else "false".

Definition setDisclaimerConfirmed (confirmed : bool) (env : StorageEnv) : StorageEnv :=
  (safeSetItem DISCLAIMER_CONFIRMED (String_of_bool confirmed) env).2.


(** [Object.values(STORAGE_KEYS).forEach(key => safeRemoveItem(key))] *)
Definition clearAllStorage (env : StorageEnv) : StorageEnv :=
  fold_left (fun e key => safeRemoveItem key e) [THEME_PREFERENCE; DISCLAIMER_CONFIRMED] env.

Definition clearMemoryStorage (env : StorageEnv) : StorageEnv :=
  mkEnv (localStorage env) ∅.


(** ** utils/dataLoader.ts: [extractTags] *)

(** [set.add(x)] on a JavaScript [Set], whose elements are kept in
    insertion order. *)
Definition Set_add (x : string) (s : list string) : list string :=
  if bool_decide (x ∈ s) then s else s ++ [x].

Definition extractTags (sites : list SiteMetadata) : list string :=
  fold_left (fun tagSet site =>
    match tags site with
    | t :: _ => Set_add t tagSet
    | [] => tagSet
    end) sites [].

(** ** SiteCardGrid.vue and App.vue: what the home page shows *)

Definition getTagAnchorId (tag : string) : string := "tag-" +:+ tag.

(** The [id]s of the [<section>] elements of the grid template: one per
    entry of [groupedSites] under [v-if="groupByTag"], none otherwise. *)
Definition section_ids (sites : list SiteMetadata) (groupByTag : bool)
  : completion (list string) :=
  if groupByTag
  then cbind (groupedSites sites groupByTag)
             (fun groups => Normal (map (fun g => getTagAnchorId g.1) groups))
  else Normal [].

(** The cards of the grid template, in document order: the groups' cards
    when grouped, the [sites] prop otherwise. *)
Definition grid_cards (sites : list SiteMetadata) (groupByTag : bool)
  : completion (list SiteMetadata) :=
  if groupByTag
  then cbind (groupedSites sites groupByTag) (fun groups => Normal (concat groups.*2))
  else Normal sites.

Section HomePage.

Variable Fuse_search : list SiteMetadata -> string -> list SiteMetadata.

(** [performSearch] of [useSearch] *)
Definition performSearch (query : string) (data : list SiteMetadata) : list SiteMetadata :=
  let trimmedQuery := js_trim query in
  if str_falsy trimmedQuery then data
  else if Nat.eqb (length data) 0 then []
  else Fuse_search data trimmedQuery.

Definition filteredSites (searchQuery : string) (sites : list SiteMetadata)
  : list SiteMetadata :=
  performSearch searchQuery sites.

Definition hasResults (searchQuery : string) (sites : list SiteMetadata) : bool :=
  Nat.ltb 0 (length (filteredSites searchQuery sites)).

Definition isSearching (searchQuery : string) : bool :=
  Nat.ltb 0 (String.length (js_trim searchQuery)).

Definition showNoResults (searchQuery : string) (sites : list SiteMetadata) : bool :=
  isSearching searchQuery && negb (hasResults searchQuery sites).

(** [shouldGroupByTag] of [App.vue] *)
Definition shouldGroupByTag (searchQuery : string) : bool :=
  bool_decide (js_trim searchQuery = "").

(** [allTags] of [App.vue] *)
Definition allTags (sites : list SiteMetadata) : list string := extractTags sites.

(** The main area of the [App.vue] template, by its [v-if] chain; the
    grid with the two props it is given. *)
Inductive MainArea : Type :=
| LoadingState
| ErrorState (errorMessage : string)
| EmptyState
| CardGrid (sites : list SiteMetadata) (groupByTag : bool).

Definition main_area (isLoading : bool) (errorMessage : option string)
  (searchQuery : string) (sites : list SiteMetadata) : MainArea :=
  let otherwise :=
    if showNoResults searchQuery sites then EmptyState
    else CardGrid (filteredSites searchQuery sites) (shouldGroupByTag searchQuery) in
  if isLoading then LoadingState
  else
    match errorMessage with
    | Some msg => if negb (str_falsy msg) then ErrorState msg else otherwise
    | None => otherwise
    end.

End HomePage.

(** ** composables/useTheme.ts

    The module-level refs and the functions of [useTheme]; the class list
    of the document element is not modelled. *)

Module UseTheme.

Record State : Type := mkState {
  themePreference : string;
  systemPrefersDark : bool;
  isInitialized : bool;
  mediaQuery : bool              (* a [change] listener is registered *)
}.

(** The refs with the storage they are saved to. *)
Record World : Type := mkWorld {
  state : State;
  storage : StorageEnv
}.

(** [window]: absent outside a browser, otherwise with the answer of
    [matchMedia('(prefers-color-scheme: dark)').matches]. *)
Definition Window : Type := option bool.

Definition initial : State := mkState "system" false false false.

Definition getSystemPrefersDark (window : Window) : bool :=
  match window with
  | None => false
  | Some matches => matches
  end.

Definition handleSystemThemeChange (matches : bool) (w : World) : World :=
  mkWorld (mkState (themePreference (state w)) matches (isInitialized (state w))
                   (mediaQuery (state w)))
          (storage w).

Definition isDarkMode (s : State) : bool :=
  if bool_decide (themePreference s = "system") then systemPrefersDark s
  else bool_decide (themePreference s = "dark").

Definition setTheme (preference : string) (w : World) : World :=
  mkWorld (mkState preference (systemPrefersDark (state w)) (isInitialized (state w))
                   (mediaQuery (state w)))
          (setThemePreference preference (storage w)).

Definition toggleTheme (w : World) : World :=
  setTheme (if isDarkMode (state w) then "light" else "dark") w.

(** [arr.indexOf(x)]: the first index, or -1. *)
Fixpoint indexOf (arr : list string) (x : string) : Z :=
  match arr with
  | [] => (-1)%Z
  | y :: rest =>
      if bool_decide (y = x) then 0%Z
      else let i := indexOf rest x in if (i <? 0)%Z then (-1)%Z else (i + 1)%Z
  end.

Definition cycleTheme (w : World) : World :=
  let order := ["light"; "dark"; "system"] in
  let currentIndex := indexOf order (themePreference (state w)) in
  let nextIndex := Z.rem (currentIndex + 1) (Z.of_nat (length order)) in
  match (if (nextIndex <? 0)%Z then None else order !! Z.to_nat nextIndex) with
  | Some nextTheme => if negb (str_falsy nextTheme) then setTheme nextTheme w else w
  | None => w
  end.

Definition initTheme (window : Window) (w : World) : World :=
  if isInitialized (state w) then w
  else
    let '(preference, env) := getThemePreference (storage w) in
    mkWorld (mkState preference (getSystemPrefersDark window) true
                     (match window with Some _ => true | None => mediaQuery (state w) end))
            env.

(** What a user or the system can do to the theme. *)
Inductive Action : Type :=
| Init (window : Window)
| SetTheme (preference : string)
| Toggle
| Cycle
| SystemChange (matches : bool).

Definition step (a : Action) (w : World) : World :=
  match a with
  | Init window => initTheme window w
  | SetTheme p => setTheme p w
  | Toggle => toggleTheme w
  | Cycle => cycleTheme w
  | SystemChange m => handleSystemThemeChange m w
  end.

Definition run (actions : list Action) (w : World) : World :=
  fold_left (fun w a => step a w) actions w.


End UseTheme.

(** ** composables/useDisclaimer.ts *)

Module UseDisclaimer.

Record State : Type := mkState {
  hasConfirmed : bool;
  isModalVisible : bool;
  isInitialized : bool
}.

Record World : Type := mkWorld {
  state : State;
  storage : StorageEnv
}.

Definition initial : State := mkState false false false.

Definition shouldShowDisclaimer (s : State) : bool :=
  negb (hasConfirmed s) && isModalVisible s.

Definition initDisclaimer (w : World) : World :=
  if isInitialized (state w) then w
  else
    let '(confirmed, env) := isDisclaimerConfirmed (storage w) in
    mkWorld (mkState confirmed
                     (if negb confirmed then true else isModalVisible (state w))
                     true)
            env.

Definition confirmDisclaimer (w : World) : World :=
  mkWorld (mkState true false (isInitialized (state w)))
          (setDisclaimerConfirmed true (storage w)).

Definition showDisclaimer (w : World) : World :=
  mkWorld (mkState (hasConfirmed (state w)) true (isInitialized (state w))) (storage w).

Definition hideDisclaimer (w : World) : World :=
  mkWorld (mkState (hasConfirmed (state w)) false (isInitialized (state w))) (storage w).

Inductive Action : Type := Init | Confirm | Show | Hide.

Definition step (a : Action) (w : World) : World :=
  match a with
  | Init => initDisclaimer w
  | Confirm => confirmDisclaimer w
  | Show => showDisclaimer w
  | Hide => hideDisclaimer w
  end.

Definition run (actions : list Action) (w : World) : World :=
  fold_left (fun w a => step a w) actions w.

End UseDisclaimer.

(** ** Header.vue: the theme button *)



(** ** The platform's URL API (WHATWG URL Standard)

    [urlUtils.ts] calls [new URL], [searchParams.delete], [searchParams.has]
    and [toString]. The URL record, the URL serializer, percent-encoding and
    the [application/x-www-form-urlencoded] parser and serializer behind
    [searchParams] are modelled here on byte sequences. The basic URL
    parser is an interface ([URLParser]); [special_url_parser] implements
    it for http, https, ws, wss and ftp URLs with a plain ASCII domain. *)

Definition bytes : Type := list ascii.

Definition bytes_of (s : string) : bytes := list_ascii_of_string s.
Definition str_of (b : bytes) : string := string_of_list_ascii b.

Definition code (c : ascii) : N := N_of_ascii c.

Definition in_range (lo hi : N) (c : ascii) : bool :=
  (lo <=? code c)%N && (code c <=? hi)%N.

Definition is_char (s : string) (c : ascii) : bool :=
  bool_decide (c ∈ bytes_of s).

Definition is_digit : ascii -> bool := in_range 48 57.
Definition is_upper : ascii -> bool := in_range 65 90.
Definition is_lower : ascii -> bool := in_range 97 122.
Definition is_alpha (c : ascii) : bool := is_upper c || is_lower c.
Definition is_alnum (c : ascii) : bool := is_alpha c || is_digit c.

Definition to_lower (c : ascii) : ascii :=
  if is_upper c then ascii_of_N (code c + 32) else c.

(** *** Percent-encoding *)

Definition hex_digit (n : N) : ascii :=
  if (n <? 10)%N then ascii_of_N (48 + n) else ascii_of_N (55 + n).

Definition hex_value (c : ascii) : option N :=
  if is_digit c then Some (code c - 48)%N
  else if in_range 65 70 c then Some (code c - 55)%N
  else if in_range 97 102 c then Some (code c - 87)%N
  else None.

Definition percent_encode_byte (c : ascii) : bytes :=
  [ "%"%char; hex_digit (code c / 16); hex_digit (code c mod 16) ].

(** The percent-encode sets of the standard, on bytes: a byte above 0x7E
    stands for (part of) a code point above U+007E. *)
Definition in_C0_control_set (c : ascii) : bool :=
  (code c <=? 31)%N || (126 <? code c)%N.

Definition SP : ascii := ascii_of_N 32.
Definition DQ : ascii := ascii_of_N 34.

Definition in_fragment_set (c : ascii) : bool :=
  in_C0_control_set c || bool_decide (c = SP) || bool_decide (c = DQ) || is_char "<>`" c.

Definition in_query_set (c : ascii) : bool :=
  in_C0_control_set c || bool_decide (c = SP) || bool_decide (c = DQ) || is_char "#<>" c.

Definition in_special_query_set (c : ascii) : bool :=
  in_query_set c || is_char "'" c.

Definition in_path_set (c : ascii) : bool :=
  in_query_set c || is_char "?^`{}" c.

(** The application/x-www-form-urlencoded percent-encode set leaves only
    ASCII alphanumerics and [*-._] unencoded. *)
Definition in_urlencoded_set (c : ascii) : bool :=
  negb (is_alnum c || is_char "*-._" c).

Definition percent_encode (set : ascii -> bool) (spaceAsPlus : bool) (input : bytes) : bytes :=
  flat_map (fun c =>
    if spaceAsPlus && bool_decide (c = SP) then [ "+"%char ]
    else if set c then percent_encode_byte c
    else [c]) input.

Fixpoint percent_decode (input : bytes) : bytes :=
  match input with
  | [] => []
  | c :: rest =>
      if bool_decide (c = "%"%char) then
        match rest with
        | h1 :: h2 :: rest' =>
            match hex_value h1, hex_value h2 with
            | Some a, Some b => ascii_of_N (16 * a + b) :: percent_decode rest'
            | _, _ => c :: percent_decode rest
            end
        | _ => c :: percent_decode rest
        end
      else c :: percent_decode rest
  end.

(** *** UTF-8 decode without BOM, on the UTF-8 encoding of its result:
    a well-formed sequence is kept, a maximal ill-formed prefix becomes
    U+FFFD, and the byte that ended it is read again. *)

Definition U_FFFD : bytes := map ascii_of_N [239; 191; 189]%N.

(** For a lead byte: how many continuation bytes follow, and the bounds on
    the first of them. *)
Definition utf8_lead (b : ascii) : option (nat * N * N) :=
  if in_range 194 223 b then Some (1%nat, 128%N, 191%N)
  else if in_range 224 224 b then Some (2%nat, 160%N, 191%N)
  else if in_range 237 237 b then Some (2%nat, 128%N, 159%N)
  else if in_range 225 239 b then Some (2%nat, 128%N, 191%N)
  else if in_range 240 240 b then Some (3%nat, 144%N, 191%N)
  else if in_range 244 244 b then Some (3%nat, 128%N, 143%N)
  else if in_range 241 243 b then Some (3%nat, 128%N, 191%N)
  else None.

Definition is_cont : ascii -> bool := in_range 128 191.

Fixpoint utf8_decode (input : bytes) : bytes :=
  match input with
  | [] => []
  | b :: r =>
      if (code b <=? 127)%N then b :: utf8_decode r
      else
        match utf8_lead b with
        | None => U_FFFD ++ utf8_decode r
        | Some (needed, lo, hi) =>
            match r with
            | [] => U_FFFD
            | c1 :: r1 =>
                if negb (in_range lo hi c1) then U_FFFD ++ utf8_decode r
                else
                  match needed with
                  | 1%nat => b :: c1 :: utf8_decode r1
                  | _ =>
                      match r1 with
                      | [] => U_FFFD
                      | c2 :: r2 =>
                          if negb (is_cont c2) then U_FFFD ++ utf8_decode r1
                          else
                            match needed with
                            | 2%nat => b :: c1 :: c2 :: utf8_decode r2
                            | _ =>
                                match r2 with
                                | [] => U_FFFD
                                | c3 :: r3 =>
                                    if negb (is_cont c3) then U_FFFD ++ utf8_decode r2
                                    else b :: c1 :: c2 :: c3 :: utf8_decode r3
                                end
                            end
                      end
                  end
            end
        end
  end.

(** A text is well-formed UTF-8 when decoding leaves it alone. *)
Definition utf8_text (s : bytes) : Prop := utf8_decode s = s.

(** *** application/x-www-form-urlencoded *)

(** Splits at every byte that satisfies [sep]; yields at least one piece. *)
Fixpoint split_on (sep : ascii -> bool) (input : bytes) : list bytes :=
  match input with
  | [] => [[]]
  | c :: rest =>
      if sep c then [] :: split_on sep rest
      else
        match split_on sep rest with
        | p :: ps => (c :: p) :: ps
        | [] => [[c]]
        end
  end.

(** Splits at the first byte equal to [sep], if there is one. *)
Fixpoint split_first (sep : ascii) (input : bytes) : bytes * option bytes :=
  match input with
  | [] => ([], None)
  | c :: rest =>
      if bool_decide (c = sep) then ([], Some rest)
      else let '(a, b) := split_first sep rest in (c :: a, b)
  end.

Definition plus_to_space (c : ascii) : ascii :=
  if bool_decide (c = "+"%char) then SP else c.

Definition form_decode (b : bytes) : bytes :=
  utf8_decode (percent_decode (map plus_to_space b)).

Definition form_parse_pair (sequence : bytes) : option (bytes * bytes) :=
  match sequence with
  | [] => None
  | _ =>
      let '(name, value) := split_first "="%char sequence in
      Some (form_decode name, form_decode (default [] value))
  end.

Definition form_parse (input : bytes) : list (bytes * bytes) :=
  omap form_parse_pair (split_on (fun c => bool_decide (c = "&"%char)) input).

Definition form_encode (b : bytes) : bytes := percent_encode in_urlencoded_set true b.

Definition form_serialize_pair (p : bytes * bytes) : bytes :=
  form_encode p.1 ++ "="%char :: form_encode p.2.

Fixpoint form_serialize (l : list (bytes * bytes)) : bytes :=
  match l with
  | [] => []
  | p :: rest =>
      form_serialize_pair p ++
      match rest with
      | [] => []
      | _ :: _ => "&"%char :: form_serialize rest
      end
  end.

(** *** URL records and the URL serializer *)

Inductive URLPath : Type :=
| OpaquePath (p : bytes)
| ListPath (segments : list bytes).

(** [host] is kept in serialized form. *)
Record URLRecord : Type := mkURL {
  scheme : bytes;
  username : bytes;
  password : bytes;
  host : option bytes;
  port : option N;
  path : URLPath;
  query : option bytes;
  fragment : option bytes
}.

Definition set_query (u : URLRecord) (q : option bytes) : URLRecord :=
  mkURL (scheme u) (username u) (password u) (host u) (port u) (path u) q (fragment u).

Definition nonempty (b : bytes) : bool :=
  match b with
  | [] => false
  | _ :: _ => true
  end.

Definition serialize_path (p : URLPath) : bytes :=
  match p with
  | OpaquePath b => b
  | ListPath segments => flat_map (fun s => "/"%char :: s) segments
  end.

Definition serialize_authority (u : URLRecord) : bytes :=
  match host u with
  | Some h =>
      bytes_of "//"
      ++ (if nonempty (username u) || nonempty (password u)
          then username u
               ++ (if nonempty (password u) then ":"%char :: password u else [])
               ++ [ "@"%char ]
          else [])
      ++ h
      ++ match port u with
         | Some n => ":"%char :: bytes_of (pretty n)
         | None => []
         end
  | None =>
      match path u with
      | ListPath ([] :: _ :: _) => bytes_of "/."
      | _ => []
      end
  end.

Definition URL_serialize (u : URLRecord) : bytes :=
  scheme u ++ ":"%char :: serialize_authority u ++ serialize_path (path u)
  ++ match query u with
     | Some q => "?"%char :: q
     | None => []
     end
  ++ match fragment u with
     | Some f => "#"%char :: f
     | None => []
     end.

(** The basic URL parser, without a base URL: [None] is failure. *)
Class URLParser : Type := {
  basic_URL_parse : bytes -> option URLRecord
}.

(** *** The JavaScript objects *)

(** A [URL] object with its [searchParams] object, whose list is parsed
    once from the query and then kept by the object. *)
Record URLObject : Type := mkURLObject {
  url_record : URLRecord;
  params : list (bytes * bytes)
}.

Section URLAPI.

Context {parser : URLParser}.

(** [new URL(input)] *)
Definition URL_new (input : string) : completion URLObject :=
  match basic_URL_parse (bytes_of input) with
  | None => Throw (TypeError "Invalid URL")
  | Some u => Normal (mkURLObject u (form_parse (default [] (query u))))
  end.

(** The update steps of [URLSearchParams]: the query becomes the
    serialization of the list, or null when that is empty. *)
Definition query_of_params (l : list (bytes * bytes)) : option bytes :=
  match form_serialize l with
  | [] => None
  | q => Some q
  end.

(** [urlObj.searchParams.delete(name)] *)
Definition searchParams_delete (name : string) (o : URLObject) : URLObject :=
  let l := filter (fun p => p.1 ≠ bytes_of name) (params o) in
  mkURLObject (set_query (url_record o) (query_of_params l)) l.

(** [urlObj.searchParams.has(name)] *)
Definition searchParams_has (name : string) (o : URLObject) : bool :=
  existsb (fun p => bool_decide (p.1 = bytes_of name)) (params o).

(** [urlObj.toString()] *)
Definition URL_toString (o : URLObject) : string :=
  str_of (URL_serialize (url_record o)).

(** ** utils/urlUtils.ts *)

Definition TRACKING_PARAMS : list string :=
  [ "utm_source"; "utm_medium"; "utm_campaign"; "utm_term"; "utm_content";
    "utm_id"; "utm_source_platform"; "utm_creative_format"; "utm_marketing_tactic";
    "fbclid"; "gclid"; "gclsrc"; "dclid"; "msclkid"; "twclid"; "igshid";
    "mc_cid"; "mc_eid";
    "ref"; "ref_src"; "ref_url"; "source"; "affiliate"; "aff_id"; "campaign_id";
    "ad_id"; "click_id"; "_ga"; "_gl"; "yclid"; "wickedid"; "wicked_source";
    "spm"; "scm"; "pvid"; "algo_pvid"; "algo_expid"; "btsid"; "ws_ab_test";
    "share_source"; "share_medium" ].

Definition cleanTrackingParams (url : string) : completion string :=
  try_catch
    (cbind (URL_new url) (fun urlObj =>
     cbind (forEach (fun param o => Normal (searchParams_delete param o))
                    TRACKING_PARAMS urlObj) (fun urlObj' =>
     Normal (URL_toString urlObj'))))
    (fun _ => Normal url).

Definition hasTrackingParams (url : string) : completion bool :=
  try_catch
    (cbind (URL_new url) (fun urlObj =>
     Normal (existsb (fun param => searchParams_has param urlObj) TRACKING_PARAMS)))
    (fun _ => Normal false).

End URLAPI.

(** ** A basic URL parser for special URLs

    The states of the standard's parser for an input without base URL whose
    scheme is http, https, ws, wss or ftp, whose authority has no
    credentials and no IP address, and whose host is an ASCII domain made
    of letters, digits, [-], [_] and [.] with no [xn--] label and a last
    label that starts with a letter. Every other input is answered with
    failure, as are the inputs the standard rejects. *)

Definition is_C0_or_space (c : ascii) : bool := (code c <=? 32)%N.

Definition is_tab_or_newline (c : ascii) : bool :=
  bool_decide (code c = 9%N) || bool_decide (code c = 10%N) || bool_decide (code c = 13%N).

Fixpoint drop_while (p : ascii -> bool) (input : bytes) : bytes :=
  match input with
  | [] => []
  | c :: rest => if p c then drop_while p rest else input
  end.

(** Leading and trailing C0 controls and spaces are stripped, then every
    tab and newline is removed. *)
Definition preprocess (input : bytes) : bytes :=
  filter (fun c => negb (is_tab_or_newline c))
    (rev (drop_while is_C0_or_space (rev (drop_while is_C0_or_space input)))).

(** The longest prefix without a byte satisfying [stop], and the rest. *)
Fixpoint span_until (stop : ascii -> bool) (input : bytes) : bytes * bytes :=
  match input with
  | [] => ([], [])
  | c :: rest =>
      if stop c then ([], input)
      else let '(a, b) := span_until stop rest in (c :: a, b)
  end.

Definition is_scheme_char (c : ascii) : bool := is_alnum c || is_char "+-." c.

(** Scheme start state and scheme state. *)
Definition parse_scheme (input : bytes) : option (bytes * bytes) :=
  match input with
  | c :: _ =>
      if is_alpha c then
        match span_until (fun c => negb (is_scheme_char c)) input with
        | (s, colon :: rest) =>
            if bool_decide (colon = ":"%char) then Some (map to_lower s, rest) else None
        | (_, []) => None
        end
      else None
  | [] => None
  end.

Definition special_schemes : list bytes :=
  map bytes_of ["http"; "https"; "ws"; "wss"; "ftp"].

Definition is_slash (c : ascii) : bool := is_char "/\" c.

Definition is_host_char (c : ascii) : bool := is_alnum c || is_char "-._" c.

Definition has_prefix (p s : bytes) : bool :=
  match strip_prefix p s with
  | Some _ => true
  | None => false
  end.

Definition starts_with_alpha (label : bytes) : bool :=
  match label with
  | c :: _ => is_alpha c
  | [] => false
  end.

(** Host parsing, for the domains described above: the result of domain to
    ASCII is the lower-cased input, and it does not end in a number. *)
Definition parse_host (input : bytes) : option bytes :=
  let h := map to_lower input in
  let labels := split_on (fun c => bool_decide (c = "."%char)) h in
  if nonempty input
     && forallb is_host_char input
     && forallb (fun l => negb (has_prefix (bytes_of "xn--") l)) labels
     && starts_with_alpha (default [] (last labels))
  then Some h
  else None.

Definition default_port (sch : bytes) : option N :=
  if bool_decide (sch = bytes_of "ftp") then Some 21%N
  else if bool_decide (sch = bytes_of "http") || bool_decide (sch = bytes_of "ws")
  then Some 80%N
  else if bool_decide (sch = bytes_of "https") || bool_decide (sch = bytes_of "wss")
  then Some 443%N
  else None.

Definition decimal_value (digits : bytes) : N :=
  fold_left (fun acc c => (10 * acc + (code c - 48))%N) digits 0%N.

(** Port state, on what follows the colon in the authority, if there is
    one: the outer [None] is failure, the inner one a null port. *)
Definition parse_port (sch : bytes) (input : option bytes) : option (option N) :=
  match input with
  | None => Some None
  | Some digits =>
      if negb (forallb is_digit digits) then None
      else if negb (nonempty digits) then Some None
      else
        let n := decimal_value digits in
        if (65535 <? n)%N then None
        else if bool_decide (default_port sch = Some n) then Some None
        else Some (Some n)
  end.

Definition is_single_dot (segment : bytes) : bool :=
  bool_decide (map to_lower segment ∈ map bytes_of ["."; "%2e"]).

Definition is_double_dot (segment : bytes) : bool :=
  bool_decide (map to_lower segment ∈ map bytes_of [".."; ".%2e"; "%2e."; "%2e%2e"]).

(** Shorten a path (the scheme is not file): drop the last segment. *)
Definition shorten (p : list bytes) : list bytes := removelast p.

(** Path state, one segment at a time; the last piece is the one that the
    end of the path terminates, the others are terminated by a slash. *)
Fixpoint path_state (pieces : list bytes) (p : list bytes) : list bytes :=
  match pieces with
  | [] => p
  | piece :: rest =>
      let buffer := percent_encode in_path_set false piece in
      match rest with
      | [] =>
          if is_double_dot buffer then shorten p ++ [[]]
          else if is_single_dot buffer then p ++ [[]]
          else p ++ [buffer]
      | _ :: _ =>
          if is_double_dot buffer then path_state rest (shorten p)
          else if is_single_dot buffer then path_state rest p
          else path_state rest (p ++ [buffer])
      end
  end.

(** Path start state and path state, on what follows the authority. *)
Definition parse_path (input : bytes) : list bytes :=
  let input' :=
    match input with
    | c :: rest => if is_slash c then rest else input
    | [] => []
    end in
  path_state (split_on is_slash input') [].

Definition special_url_parse (input : bytes) : option URLRecord :=
  let '(before_fragment, frag) := split_first "#"%char (preprocess input) in
  let '(body, qry) := split_first "?"%char before_fragment in
  match parse_scheme body with
  | Some (sch, rest) =>
      if bool_decide (sch ∈ special_schemes) then
        let '(authority, rest') := span_until is_slash (drop_while is_slash rest) in
        let '(hostname, after_colon) := split_first ":"%char authority in
        match parse_host hostname, parse_port sch after_colon with
        | Some h, Some p =>
            Some (mkURL sch [] [] (Some h) p (ListPath (parse_path rest'))
                    (percent_encode in_special_query_set false <$> qry)
                    (percent_encode in_fragment_set false <$> frag))
        | _, _ => None
        end
      else None
  | None => None
  end.

#[global] Instance special_url_parser : URLParser :=
  {| basic_URL_parse := special_url_parse |}.

(** ** Examples of the sanitizer on the special-URL parser *)

Definition clean (url : string) : completion string :=
  @cleanTrackingParams special_url_parser url.

Definition has_tracking (url : string) : completion bool :=
  @hasTrackingParams special_url_parser url.

(** ** utils/urlUtils.ts: [openCleanUrl] *)

(** [window.open(url, target, features)] is the browser's: it resolves
    [url] against the address of the page and may throw (a [SyntaxError]
    when that fails).  Its outcome is a parameter; the function's is that
    of the call, which no [try] encloses. *)
Definition openCleanUrl {parser : URLParser}
  (window_open : string -> string -> string -> completion unit) (url : string)
  : completion unit :=
  cbind (cleanTrackingParams url) (fun cleanUrl =>
    window_open cleanUrl "_blank" "noopener,noreferrer").

(** ** Auxiliary notions for the properties *)

(** The bytes the serializer produces for a name or a value. *)
Definition form_safe (c : ascii) : bool := is_alnum c || is_char "*-._+%" c.

(** The bytes of a serialized list. *)
Definition query_safe (c : ascii) : bool := form_safe c || is_char "=&" c.

Definition pair_text (p : bytes * bytes) : Prop := utf8_text p.1 /\ utf8_text p.2.

(** The parameters of a URL record, as [searchParams] lists them. *)
Definition URL_params (u : URLRecord) : list (bytes * bytes) :=
  form_parse (default [] (query u)).

(** A parameter whose name is on the deny-list. *)
Definition tracked (p : bytes * bytes) : Prop := p.1 ∈ map bytes_of TRACKING_PARAMS.

#[global] Instance tracked_dec p : Decision (tracked p).
Proof. unfold tracked. apply _. Defined.

Definition strip_tracking (l : list (bytes * bytes)) : list (bytes * bytes) :=
  filter (fun p => ~ tracked p) l.

(** The URL a sanitized link is built from: the parsed record with its
    query replaced by the serialization of the parameters that are kept. *)
Definition cleaned_record (u : URLRecord) : URLRecord :=
  set_query u (query_of_params (strip_tracking (URL_params u))).

(** The URL with its query re-serialized from all of its parameters. *)
Definition renormalized_record (u : URLRecord) : URLRecord :=
  set_query u (query_of_params (URL_params u)).

(** What the standard promises of its parser and serializer: a record that
    the parser produced, whose query was then set from a parameter list,
    is parsed back from its serialization. *)
Class URLParserLaws (parser : URLParser) : Prop := {
  parse_serialize_query :
    forall input u l,
      basic_URL_parse input = Some u ->
      basic_URL_parse (URL_serialize (set_query u (query_of_params l)))
      = Some (set_query u (query_of_params l))
}.

(** A syntactically valid URL: [new URL(url)] does not throw. *)
Definition valid_URL {parser : URLParser} (url : string) : Prop :=
  is_Some (basic_URL_parse (bytes_of url)).

(** The parameters left after deleting each of [names]. *)
Definition keep_names (names : list string) (l : list (bytes * bytes))
  : list (bytes * bytes) :=
  filter (fun p => p.1 ∉ map bytes_of names) l.

(** A byte that is no C0 control and no space. *)
Definition visible (c : ascii) : bool := negb (is_C0_or_space c).

(** A byte that can stand in a serialized path segment. *)
Definition segment_byte (c : ascii) : bool := negb (in_path_set c) && negb (is_slash c).

(** A path segment as the parser leaves it. *)
Definition good_segment (s : bytes) : Prop :=
  Forall (fun c => segment_byte c = true) s
  /\ is_single_dot s = false /\ is_double_dot s = false.

(** A query or fragment in a serialization: its delimiter and its bytes. *)
Definition opt_part (sep : ascii) (o : option bytes) : bytes :=
  match o with
  | Some x => sep :: x
  | None => []
  end.

(** The bytes a serialized URL is made of, by component. *)
Definition body_byte (c : ascii) : Prop :=
  visible c = true /\ c <> "#"%char /\ c <> "?"%char.

Definition query_byte (c : ascii) : Prop :=
  in_special_query_set c = false /\ visible c = true /\ c <> "#"%char.

Definition fragment_byte (c : ascii) : Prop :=
  in_fragment_set c = false /\ visible c = true.

Definition opt_Forall (P : ascii -> Prop) (o : option bytes) : Prop :=
  match o with
  | Some x => Forall P x
  | None => True
  end.

(** A port as the serializer writes it. *)
Definition port_digits (p : option N) : option bytes :=
  (fun n : N => bytes_of (pretty n)) <$> p.

(** The records the special-URL parser produces. *)
Definition special_record (u : URLRecord) : Prop :=
  exists sch h segs,
    u = mkURL sch [] [] (Some h) (port u) (ListPath segs) (query u) (fragment u)
    /\ sch ∈ special_schemes
    /\ parse_host h = Some h /\ h <> [] /\ Forall (fun c => is_host_char c = true) h
    /\ parse_port sch (port_digits (port u)) = Some (port u)
    /\ Forall good_segment segs /\ segs <> []
    /\ opt_Forall query_byte (query u)
    /\ opt_Forall fragment_byte (fragment u).

(** [x] is what the percent-decoder turns into the single byte [c]: the
    byte itself, or a percent sign and its two hexadecimal digits. *)
Definition decodes_to (c : ascii) (x : bytes) : bool :=
  match x with
  | [c1] => bool_decide (c1 = c) && negb (bool_decide (c1 = "%"%char))
  | [c1; h1; h2] =>
      bool_decide (c1 = "%"%char)
      && match hex_value h1, hex_value h2 with
         | Some a, Some b => bool_decide (ascii_of_N (16 * a + b) = c)
         | _, _ => false
         end
  | _ => false
  end.

(** The normalized form of a valid URL, as [new URL(url)] with its query
    rewritten from [searchParams] serializes it. *)
Definition URL_normalize (u : URLRecord) : string :=
  str_of (URL_serialize (renormalized_record u)).

(** The key [isLocalStorageAvailable] writes and removes to probe the store. *)
Definition STORAGE_TEST_KEY : string := "__storage_test__".

(** [localStorage] works: [isLocalStorageAvailable] answers [true]. *)
Definition storage_works (env : StorageEnv) : bool :=
  (isLocalStorageAvailable (localStorage env)).1.

(** [localStorage.setItem(key, value)] does not throw. *)
Definition LS_accepts (ls : LocalStorage) (key value : string) : bool :=
  match LS_setItem key value ls with
  | Normal _ => true
  | Throw _ => false
  end.

(** A working [localStorage] refuses the entry: the probe passes and the
    write itself throws. *)
Definition refused (env : StorageEnv) (key value : string) : bool :=
  storage_works env && negb (LS_accepts (localStorage env) key value).

(** The shape of a JSON value that the [SiteMetadata] interface of
    [types/index.ts] describes. *)
Definition conforms_SiteMetadata (site : JSON) : Prop :=
  (exists props, site = JObject props)
  /\ (exists n, js_get (Some site) "id" = Some (JNumber n))
  /\ (forall f, f ∈ ["title"; "cover"; "url"; "description"] ->
        exists s, js_get (Some site) f = Some (JString s))
  /\ (exists ts, js_get (Some site) "tags" = Some (JArray ts)
                 /\ Forall (fun t => exists s, t = JString s) ts)
  /\ (js_get (Some site) "content" = None
      \/ exists s, js_get (Some site) "content" = Some (JString s))
  /\ (js_get (Some site) "contentType" = None
      \/ js_get (Some site) "contentType" = Some (JString "text")
      \/ js_get (Some site) "contentType" = Some (JString "file")).

(** The shape that [SiteConfig] describes. *)
Definition conforms_SiteConfig (config : JSON) : Prop :=
  (exists props, config = JObject props)
  /\ (exists s, js_get (Some config) "siteTitle" = Some (JString s))
  /\ (exists s, js_get (Some config) "adminContact" = Some (JString s)).

(** The shape that [SiteDataFile] describes. *)
Definition conforms_SiteDataFile (data : JSON) : Prop :=
  exists config sites,
    js_get (Some data) "config" = Some config
    /\ conforms_SiteConfig config
    /\ js_get (Some data) "sites" = Some (JArray sites)
    /\ Forall conforms_SiteMetadata sites.

(** The refs [siteConfig] and [sites] of [App.vue] hold values of their
    declared types. *)
Definition conforming_state (st : AppState) : Prop :=
  exists config sites',
    siteConfig st = Some config
    /\ conforms_SiteConfig config
    /\ sites st = Some (JArray sites')
    /\ Forall conforms_SiteMetadata sites'.

(** The primary tag of [site] is one of [ks]. *)
Definition primary_in (ks : list string) (site : SiteMetadata) : Prop :=
  match primaryTag site with
  | Some t => t ∈ ks
  | None => False
  end.

#[global] Instance primary_in_dec ks site : Decision (primary_in ks site).
Proof. unfold primary_in. destruct (primaryTag site); apply _. Defined.


(** The order light, dark, system, light of [cycleTheme]. *)
Definition next_theme (p : string) : string :=
  if bool_decide (p = "light") then "dark"
  else if bool_decide (p = "dark") then "system"
  else "light".

(** A validation result that failed, with its message. *)
Definition has_message (r : ValidationResult) : Prop :=
  exists msg, r = invalid msg /\ msg <> "".

(** ** Sample data for the examples *)

Definition site_a : SiteMetadata :=
  mkSite 1 "Vue" "" "https://vuejs.org/" ["a"] "framework" None None.
Definition site_b : SiteMetadata :=
  mkSite 2 "Vite" "" "https://vite.dev/" ["b"] "tooling" None (Some CT_text).
Definition site_c : SiteMetadata :=
  mkSite 3 "Pinia" "" "https://pinia.vuejs.org/" ["a"; "c"] "store" None None.

Definition valid_theme (v : string) : Prop :=
  v = "light" \/ v = "dark" \/ v = "system".

Definition env_corrupted : StorageEnv :=
  mkEnv (LS_items 5242880 {[ THEME_PREFERENCE := "Dark"; "__storage_test__" := "x" ]}) ∅.

Definition env_fallback : StorageEnv :=
  mkEnv LS_throws {[ THEME_PREFERENCE := "dark" ]}.

Definition MSG_siteTitle : string := "配置验证失败: 字段 siteTitle 必须是字符串".

(** [{"config": {"adminContact": "a@b.com"}, "sites": [1]}]: no
    [siteTitle], and an ill-formed site as well. *)
Definition data_no_title : JSON :=
  JObject [("config", JObject [("adminContact", JString "a@b.com")]);
           ("sites", JArray [JNumber 1])].

Definition fetch_ok (data : JSON) : string -> FetchOutcome :=
  fun _ => FetchResolves (mkResponse true 200 "OK" (JsonResolves data)).

Definition state_loaded : AppState :=
  mkApp (Some (JObject [("siteTitle", JString "T"); ("adminContact", JString "")]))
        (Some (JArray [])) false None.

(** [{"id": 1, "title": "Vue", ..., "tags": ["a"]}] *)
Definition json_site_a : JSON :=
  JObject [("id", JNumber 1); ("title", JString "Vue"); ("cover", JString "");
           ("url", JString "https://vuejs.org/"); ("tags", JArray [JString "a"]);
           ("description", JString "framework")].

Definition json_config : JSON :=
  JObject [("siteTitle", JString "T"); ("adminContact", JString "a@b.com")].

(** A document whose second site is not an object. *)
Definition data_bad_site : JSON :=
  JObject [("config", json_config); ("sites", JArray [json_site_a; JNumber 1])].

Definition data_good : JSON :=
  JObject [("config", json_config); ("sites", JArray [json_site_a])].






(** A store too full for the probe. *)
Definition env_full : StorageEnv :=
  mkEnv (LS_items 10 {[ THEME_PREFERENCE := "dark" ]}) ∅.

(** * Properties *)

(** ** Tag grouping *)

Section Grouping.

Implicit Types (sites : list SiteMetadata) (site : SiteMetadata).
Implicit Types (ks : list string) (t k : string).

Lemma Map_has_keyed {V} (g : string -> V) t ks :
  Map_has t (keyed g ks) = bool_decide (t ∈ ks).
Proof.
  induction ks as [|k ks IH]; simpl; [done|].
  destruct (decide (k = t)) as [->|Hne].
  - symmetry. apply bool_decide_eq_true. left.
  - rewrite IH. apply bool_decide_ext. rewrite elem_of_cons. naive_solver.
Qed.

Lemma Map_get_keyed_in {V} (g : string -> V) t ks :
  t ∈ ks -> Map_get t (keyed g ks) = Some (g t).
Proof.
  induction ks as [|k ks IH]; simpl; intros Hin.
  - by apply elem_of_nil in Hin.
  - destruct (decide (k = t)) as [->|Hne]; [done|].
    apply IH. apply elem_of_cons in Hin as [->|]; done.
Qed.

Lemma Map_get_app_new {V} (m : JSMap V) t v :
  Map_has t m = false -> Map_get t (m ++ [(t, v)]) = Some v.
Proof.
  induction m as [|[k w] m IH]; simpl; intros Hhas.
  - by rewrite decide_True.
  - destruct (decide (k = t)); [done | by apply IH].
Qed.

Lemma Map_set_new {V} (m : JSMap V) t v :
  Map_has t m = false -> Map_set t v m = m ++ [(t, v)].
Proof.
  induction m as [|[k w] m IH]; simpl; intros Hhas; [done|].
  destruct (decide (k = t)); [done | by rewrite IH].
Qed.

Lemma Map_set_app_last {V} (m : JSMap V) t v w :
  Map_has t m = false -> Map_set t w (m ++ [(t, v)]) = m ++ [(t, w)].
Proof.
  induction m as [|[k u] m IH]; simpl; intros Hhas.
  - by rewrite decide_True.
  - destruct (decide (k = t)); [done | by rewrite IH].
Qed.

Lemma Map_set_keyed_in {V} (g : string -> V) t v ks :
  NoDup ks -> t ∈ ks ->
  Map_set t v (keyed g ks) = keyed (fun k => if decide (k = t) then v else g k) ks.
Proof.
  induction ks as [|k ks IH]; simpl; intros Hnd Hin.
  - by apply elem_of_nil in Hin.
  - apply NoDup_cons in Hnd as [Hk Hnd].
    destruct (decide (k = t)) as [->|Hne].
    + f_equal. unfold keyed. apply map_ext_in. intros k' Hk'.
      apply list_elem_of_In in Hk'.
      destruct (decide (k' = t)) as [->|]; [done | done].
    + f_equal. apply IH; [done|].
      apply elem_of_cons in Hin as [->|]; done.
Qed.

Lemma keyed_ext {V} (g g' : string -> V) ks :
  (forall k, k ∈ ks -> g k = g' k) -> keyed g ks = keyed g' ks.
Proof.
  intros H. unfold keyed. apply map_ext_in. intros k Hk.
  f_equal. apply H. by apply list_elem_of_In.
Qed.

Lemma elem_of_first_appearances t (l : list string) :
  t ∈ first_appearances l <-> t ∈ l.
Proof.
  induction l as [|a l IH]; simpl; [done|].
  rewrite !elem_of_cons, list_elem_of_filter, IH.
  destruct (decide (t = a)); naive_solver.
Qed.

Lemma NoDup_first_appearances (l : list string) : NoDup (first_appearances l).
Proof.
  induction l as [|a l IH]; simpl; [constructor|].
  apply NoDup_cons. split.
  - rewrite list_elem_of_filter. naive_solver.
  - by apply NoDup_filter.
Qed.

Lemma first_appearances_snoc (l : list string) t :
  first_appearances (l ++ [t]) =
  first_appearances l ++ (if decide (t ∈ l) then [] else [t]).
Proof.
  induction l as [|a l IH]; simpl.
  - reflexivity.
  - rewrite IH, filter_app. f_equal.
    destruct (decide (t ∈ l)) as [Hin|Hnin].
    + rewrite decide_True by (by right). by rewrite !app_nil_r.
    + destruct (decide (t = a)) as [->|Hne].
      * rewrite decide_True by left. rewrite app_nil_r.
        rewrite filter_cons_False by naive_solver. by rewrite filter_nil, app_nil_r.
      * rewrite decide_False by (rewrite elem_of_cons; naive_solver).
        rewrite filter_cons_True by done. by rewrite filter_nil.
Qed.

Lemma filter_has_primary_absent t sites :
  t ∉ omap primaryTag sites -> filter (has_primary t) sites = [].
Proof.
  induction sites as [|s sites IH]; simpl; intros Hnin; [done|].
  unfold has_primary at 1.
  destruct (primaryTag s) as [t'|] eqn:Hp.
  - rewrite not_elem_of_cons in Hnin. destruct Hnin as [Hne Hnin].
    rewrite filter_cons_False by (unfold has_primary; congruence). by apply IH.
  - rewrite filter_cons_False by (unfold has_primary; congruence). by apply IH.
Qed.

Lemma group_step_spec sites site :
  group_step site (spec_group sites) = Normal (spec_group (sites ++ [site])).
Proof.
  unfold group_step, spec_group.
  rewrite omap_app. simpl.
  destruct (tags site) as [|t ts] eqn:Htags.
  - assert (Hp : primaryTag site = None) by (unfold primaryTag; by rewrite Htags).
    rewrite Hp, app_nil_r. f_equal. apply keyed_ext. intros k _.
    rewrite filter_app, filter_cons_False, filter_nil, app_nil_r; [done|].
    unfold has_primary, primaryTag. by rewrite Htags.
  - assert (Hp : primaryTag site = Some t) by (unfold primaryTag; by rewrite Htags).
    rewrite Hp, first_appearances_snoc.
    set (ks := omap primaryTag sites).
    fold (keyed (fun k => filter (has_primary k) sites) (first_appearances ks)).
    rewrite Map_has_keyed.
    assert (Hsnoc : forall k, filter (has_primary k) (sites ++ [site]) =
              filter (has_primary k) sites ++ (if decide (k = t) then [site] else [])).
    { intros k. rewrite filter_app. f_equal.
      destruct (decide (k = t)) as [->|Hne].
      - rewrite filter_cons_True; [done|]. unfold has_primary, primaryTag. by rewrite Htags.
      - rewrite filter_cons_False; [done|]. unfold has_primary, primaryTag. rewrite Htags.
        congruence. }
    destruct (decide (t ∈ ks)) as [Hin|Hnin].
    + rewrite bool_decide_eq_true_2 by (by apply elem_of_first_appearances).
      simpl. unfold Map_get_push.
      rewrite Map_get_keyed_in by (by apply elem_of_first_appearances).
      rewrite Map_set_keyed_in
        by (apply NoDup_first_appearances || by apply elem_of_first_appearances).
      rewrite app_nil_r. f_equal. apply keyed_ext. intros k _.
      rewrite Hsnoc. destruct (decide (k = t)) as [->|]; [done | by rewrite app_nil_r].
    + rewrite bool_decide_eq_false_2 by (by rewrite elem_of_first_appearances).
      simpl.
      assert (Hhas : Map_has t (keyed (fun k => filter (has_primary k) sites)
                                      (first_appearances ks)) = false).
      { rewrite Map_has_keyed. apply bool_decide_eq_false_2.
        by rewrite elem_of_first_appearances. }
      rewrite Map_set_new by done. unfold Map_get_push.
      rewrite Map_get_app_new by done. rewrite Map_set_app_last by done.
      rewrite map_app. simpl.
      rewrite (Hsnoc t), decide_True by done.
      rewrite (filter_has_primary_absent t sites Hnin). simpl.
      do 2 f_equal. apply keyed_ext. intros k Hk. rewrite Hsnoc.
      rewrite decide_False; [by rewrite app_nil_r|].
      intros ->. by apply Hnin, elem_of_first_appearances.
Qed.

Lemma forEach_group_step sites rest :
  forEach group_step rest (spec_group sites) = Normal (spec_group (sites ++ rest)).
Proof.
  revert sites. induction rest as [|s rest IH]; intros sites; simpl.
  - by rewrite app_nil_r.
  - rewrite group_step_spec. simpl. rewrite IH. by rewrite <- app_assoc.
Qed.

Lemma spec_group_lookup sites t g :
  (t, g) ∈ spec_group sites ->
  t ∈ omap primaryTag sites /\ g = filter (has_primary t) sites.
Proof.
  unfold spec_group. rewrite list_elem_of_fmap. intros (k & Heq & Hk).
  injection Heq as -> ->. split; [|done]. by apply elem_of_first_appearances.
Qed.

(** C9: with [groupByTag = false] the result is exactly one group, named
    "全部", that holds every input entry in input order. *)
Theorem groupedSites_ungrouped sites :
  groupedSites sites false = Normal [("全部", sites)].
Proof. reflexivity. Qed.

(** C3: with [groupByTag = true] the grouping returns (it does not throw)
    the map the specification describes: its keys are the distinct primary
    tags [tags[0]] in order of first appearance, the group of a key holds
    exactly the entries with that primary tag, in their input order, and an
    entry with empty [tags] is in no group. *)
Theorem groupedSites_by_tag sites :
  groupedSites sites true = Normal (spec_group sites)
  /\ Map_keys (spec_group sites) = first_appearances (omap primaryTag sites)
  /\ NoDup (Map_keys (spec_group sites))
  /\ (forall t g, (t, g) ∈ spec_group sites ->
        g = filter (has_primary t) sites /\ sublist g sites /\ g <> [])
  /\ (forall site t g, tags site = [] -> (t, g) ∈ spec_group sites -> site ∉ g)
  /\ (forall site t, site ∈ sites -> primaryTag site = Some t ->
        exists g, (t, g) ∈ spec_group sites /\ site ∈ g).
Proof.
  assert (Hkeys : Map_keys (spec_group sites) = first_appearances (omap primaryTag sites)).
  { unfold Map_keys, spec_group. rewrite <- list_fmap_compose.
    apply list_fmap_id. }
  split; [|split; [|split; [|split; [|split]]]].
  - unfold groupedSites. simpl. apply (forEach_group_step [] sites).
  - exact Hkeys.
  - rewrite Hkeys. apply NoDup_first_appearances.
  - intros t g Hin. apply spec_group_lookup in Hin as [Ht ->].
    split; [done|]. split; [apply sublist_filter|].
    apply list_elem_of_omap in Ht as (s & Hs & Hp).
    intros Hnil. assert (Hs' : s ∈ filter (has_primary t) sites)
      by (apply list_elem_of_filter; done).
    rewrite Hnil in Hs'. by apply elem_of_nil in Hs'.
  - intros site t g Htags Hin Hsite. apply spec_group_lookup in Hin as [_ ->].
    apply list_elem_of_filter in Hsite as [Hp _].
    unfold has_primary, primaryTag in Hp. by rewrite Htags in Hp.
  - intros site t Hsite Hp. exists (filter (has_primary t) sites). split.
    + unfold spec_group. apply list_elem_of_fmap.
      exists t. split; [done|]. apply elem_of_first_appearances.
      apply list_elem_of_omap. eauto.
    + apply list_elem_of_filter. done.
Qed.

End Grouping.

(** Entries tagged [a], [b] and [a, c]: the groups are [a] with the first
    and third entry, then [b] with the second. *)
Lemma groupedSites_by_tag_witness :
  groupedSites [site_a; site_b; site_c] true
  = Normal [("a", [site_a; site_c]); ("b", [site_b])]
  /\ site_c ∈ [site_a; site_c].
Proof.
  split.
  - rewrite (proj1 (groupedSites_by_tag [site_a; site_b; site_c])).
    vm_compute. reflexivity.
  - destruct (proj2 (proj2 (proj2 (proj2 (proj2
               (groupedSites_by_tag [site_a; site_b; site_c])))))
               site_c "a") as (g & Hg & Hin).
    + apply list_elem_of_In. vm_compute. tauto.
    + reflexivity.
    + apply spec_group_lookup in Hg as [_ ->]. vm_compute in Hin. exact Hin.
Defined.

(** ** Search *)

Lemma strip_any_token t rest :
  t ∈ whitespace_tokens -> strip_any whitespace_tokens (t ++ rest) = Some rest.
Proof.
  intros H. unfold whitespace_tokens, js_whitespace in H. simpl in H.
  repeat (apply elem_of_cons in H as [->|H]; [reflexivity|]).
  by apply elem_of_nil in H.
Qed.

Lemma token_nonempty t : t ∈ whitespace_tokens -> 1 <= length t.
Proof.
  intros H. unfold whitespace_tokens, js_whitespace in H. simpl in H.
  repeat (apply elem_of_cons in H as [->|H]; [simpl; lia|]).
  by apply elem_of_nil in H.
Qed.

Lemma strip_all_nil fuel : strip_all fuel whitespace_tokens [] = [].
Proof. by destruct fuel. Qed.

Lemma strip_all_tokens ws fuel :
  Forall (fun t => t ∈ whitespace_tokens) ws -> length (concat ws) <= fuel ->
  strip_all fuel whitespace_tokens (concat ws) = [].
Proof.
  intros Hws. revert fuel. induction Hws as [|t ws Ht Hws IH]; intros fuel Hlen.
  - apply strip_all_nil.
  - cbn [concat] in *. rewrite length_app in Hlen.
    pose proof (token_nonempty t Ht).
    destruct fuel as [|fuel]; [lia|]. cbn [strip_all].
    rewrite strip_any_token by done. apply IH. lia.
Qed.

Lemma js_trim_whitespace_only query : whitespace_only query -> js_trim query = "".
Proof.
  intros (ws & Hws & ->). unfold js_trim.
  rewrite list_ascii_of_string_of_list_ascii. unfold trimStart_bytes.
  by rewrite strip_all_tokens.
Qed.

Section SearchProps.

Variable Fuse_search : list SiteMetadata -> string -> list SiteMetadata.

Lemma str_falsy_empty s : str_falsy s = true <-> s = "".
Proof. destruct s; simpl; split; congruence. Qed.

(** C4: a query that trims to the empty string, as the empty query and
    every query of white space only do, returns the input sequence itself,
    whatever the ranking library would do; and the empty sequence is
    returned for every query on an empty sequence. *)
Theorem searchSites_passthrough :
  (forall sites query, js_trim query = "" -> searchSites Fuse_search sites query = sites)
  /\ (forall sites query, whitespace_only query ->
        searchSites Fuse_search sites query = sites)
  /\ (forall query, searchSites Fuse_search [] query = []).
Proof.
  assert (H : forall sites query,
             js_trim query = "" -> searchSites Fuse_search sites query = sites).
  { intros sites query Htrim. unfold searchSites. by rewrite Htrim. }
  split; [exact H|]. split.
  - intros sites query Hws. by apply H, js_trim_whitespace_only.
  - intros query. unfold searchSites. by destruct (str_falsy (js_trim query)).
Qed.

End SearchProps.

Example js_trim_empty : js_trim "" = "".
Proof. reflexivity. Qed.

Example js_trim_blanks :
  js_trim (str_of_codes [32; 9; 10; 227; 128; 128; 194; 160; 13]%N) = "".
Proof. vm_compute. reflexivity. Qed.

Example js_trim_inner : js_trim "  vue  js " = "vue  js".
Proof. vm_compute. reflexivity. Qed.

Lemma searchSites_passthrough_witness :
  js_trim "   " = ""
  /\ searchSites (fun _ _ => [site_c]) [site_a; site_b] "   " = [site_a; site_b].
Proof.
  split; [vm_compute; reflexivity|].
  apply (proj1 (searchSites_passthrough (fun _ _ => [site_c]))).
  vm_compute. reflexivity.
Defined.

(** ** Theme preference *)

(** C10: whatever the storage holds (nothing, a corrupted value, a store
    that throws), the preference read is one of the three valid values; it
    is the stored value when that is valid and ['system'] otherwise. *)
Theorem getThemePreference_valid env :
  valid_theme (getThemePreference env).1
  /\ (forall v, (safeGetItem THEME_PREFERENCE env).1 = Some v -> valid_theme v ->
        (getThemePreference env).1 = v)
  /\ ((forall v, (safeGetItem THEME_PREFERENCE env).1 = Some v -> ~ valid_theme v) ->
        (getThemePreference env).1 = "system").
Proof.
  unfold getThemePreference, valid_theme.
  destruct (safeGetItem THEME_PREFERENCE env) as [[v|] env']; simpl.
  - destruct (bool_decide (v = "light") || bool_decide (v = "dark")
              || bool_decide (v = "system")) eqn:Hv; simpl.
    + rewrite !orb_true_iff, !bool_decide_eq_true in Hv.
      split; [tauto|]. split; [congruence|].
      intros H. exfalso. apply (H v eq_refl). tauto.
    + rewrite !orb_false_iff, !bool_decide_eq_false in Hv.
      split; [tauto|]. split; [|done].
      intros v' [= <-] Hok. tauto.
  - split; [tauto|]. split; [congruence|]. done.
Qed.

Lemma getThemePreference_valid_witness :
  (getThemePreference env_corrupted).1 = "system"
  /\ (getThemePreference env_fallback).1 = "dark".
Proof.
  split.
  - apply (proj2 (proj2 (getThemePreference_valid env_corrupted))).
    intros v Hv. vm_compute in Hv. injection Hv as <-.
    unfold valid_theme. intros [H|[H|H]]; discriminate H.
  - apply (proj1 (proj2 (getThemePreference_valid env_fallback)) "dark").
    + vm_compute. reflexivity.
    + right. left. reflexivity.
Defined.

(** ** Loading and validation *)

Section Loader.

Implicit Types (data : JSON) (fetch : string -> FetchOutcome) (st : AppState).

Lemma validateSiteConfig_siteTitle (config : JSValue) :
  js_not config = false ->
  js_typeof config = T_object ->
  is_string (js_get config "siteTitle") = false ->
  validateSiteConfig config = invalid "字段 siteTitle 必须是字符串".
Proof.
  intros Hnot Hty Hstr. unfold validateSiteConfig.
  rewrite Hnot, Hty, Hstr. reflexivity.
Qed.

Lemma validateSiteDataFile_siteTitle data :
  js_not (js_get (Some data) "config") = false ->
  js_typeof (js_get (Some data) "config") = T_object ->
  is_string (js_get (js_get (Some data) "config") "siteTitle") = false ->
  validateSiteDataFile (Some data) = invalid MSG_siteTitle.
Proof.
  intros Hnot Hty Hstr. unfold validateSiteDataFile.
  rewrite (validateSiteConfig_siteTitle _ Hnot Hty Hstr).
  destruct data; try discriminate Hnot. reflexivity.
Qed.

(** C2, as the code has it: when the [config] object of the loaded JSON has
    no string [siteTitle], validation fails at that field whatever else is
    wrong with the input, and the load returns a [VALIDATION_ERROR] whose
    [message] names the field and the expected type, while its [field] is
    the constant ['data']. *)
Theorem loadSiteData_missing_siteTitle fetch path response data :
  fetch path = FetchResolves response ->
  ok response = true ->
  json response = JsonResolves data ->
  js_not (js_get (Some data) "config") = false ->
  js_typeof (js_get (Some data) "config") = T_object ->
  is_string (js_get (js_get (Some data) "config") "siteTitle") = false ->
  validateSiteDataFile (Some data) = invalid MSG_siteTitle
  /\ loadSiteData fetch path
     = LoadFailure (mkError VALIDATION_ERROR (Some "data") MSG_siteTitle).
Proof.
  intros Hfetch Hok Hjson Hnot Hty Hstr.
  pose proof (validateSiteDataFile_siteTitle data Hnot Hty Hstr) as Hval.
  split; [exact Hval|].
  unfold loadSiteData. rewrite Hfetch, Hok, Hjson, Hval. reflexivity.
Qed.

End Loader.

Lemma loadSiteData_missing_siteTitle_witness :
  loadSiteData (fetch_ok data_no_title) DEFAULT_DATA_PATH
  = LoadFailure (mkError VALIDATION_ERROR (Some "data") MSG_siteTitle).
Proof.
  apply (loadSiteData_missing_siteTitle (fetch_ok data_no_title) DEFAULT_DATA_PATH
           (mkResponse true 200 "OK" (JsonResolves data_no_title)) data_no_title);
    reflexivity.
Defined.

(** The [field] of the error for a missing [siteTitle] is ['data'], not the
    offending field path, and so is what the user-facing message shows. *)
Lemma loadSiteData_field_is_data :
  exists e,
    loadSiteData (fetch_ok data_no_title) DEFAULT_DATA_PATH = LoadFailure e
    /\ type e = VALIDATION_ERROR
    /\ field e = Some "data"
    /\ field e <> Some "siteTitle"
    /\ getErrorMessage e = "数据验证失败: data".
Proof.
  eexists. split; [vm_compute; reflexivity|].
  repeat split; try reflexivity. discriminate.
Qed.

Example validateSiteDataFile_empty_sites :
  validateSiteDataFile
    (Some (JObject [("config", JObject [("siteTitle", JString "T");
                                         ("adminContact", JString "a@b.com")]);
                    ("sites", JArray [])]))
  = is_valid.
Proof. vm_compute. reflexivity. Qed.

Section LoadData.

Implicit Types (fetch : string -> FetchOutcome) (st : AppState).

(** C7: a load that fails, for whichever of the three reasons, leaves
    [siteConfig] and [sites] as they were, both while the request is pending
    and after it; it only sets the error message and clears the loading
    flag. A load that succeeds installs the config and the sites of one
    validated document together. *)
Theorem loadData_failure_keeps_snapshot fetch st :
  siteConfig (loadData_begin st) = siteConfig st
  /\ sites (loadData_begin st) = sites st
  /\ (forall e, loadSiteData fetch DEFAULT_DATA_PATH = LoadFailure e ->
        loadData fetch st = mkApp (siteConfig st) (sites st) false (Some (getErrorMessage e)))
  /\ (forall data, loadSiteData fetch DEFAULT_DATA_PATH = LoadSuccess data ->
        valid (validateSiteDataFile (Some data)) = true
        /\ loadData fetch st
           = mkApp (js_get (Some data) "config") (js_get (Some data) "sites") false None).
Proof.
  split; [reflexivity|]. split; [reflexivity|]. split.
  - intros e He. unfold loadData. rewrite He. reflexivity.
  - intros data Hd. unfold loadData. rewrite Hd. split; [|reflexivity].
    unfold loadSiteData in Hd.
    destruct (fetch DEFAULT_DATA_PATH) as [err|response]; [discriminate|].
    destruct (ok response); simpl in Hd; [|discriminate].
    destruct (json response) as [d|]; [|discriminate].
    destruct (valid (validateSiteDataFile (Some d))) eqn:Hv; simpl in Hd; [|discriminate].
    by injection Hd as <-.
Qed.

(** Every outcome of [fetch] that is not a valid document is a failure of
    one of the three kinds. *)
Lemma loadSiteData_failure_kinds fetch path :
  match fetch path with
  | FetchRejects _ => exists e, loadSiteData fetch path = LoadFailure e /\ type e = NETWORK_ERROR
  | FetchResolves r =>
      if negb (ok r) then
        exists e, loadSiteData fetch path = LoadFailure e /\ type e = NETWORK_ERROR
      else match json r with
           | JsonRejects =>
               exists e, loadSiteData fetch path = LoadFailure e /\ type e = PARSE_ERROR
           | JsonResolves d =>
               if valid (validateSiteDataFile (Some d))
               then loadSiteData fetch path = LoadSuccess d
               else exists e, loadSiteData fetch path = LoadFailure e
                              /\ type e = VALIDATION_ERROR
           end
  end.
Proof.
  unfold loadSiteData.
  destruct (fetch path) as [err|r]; [eexists; split; reflexivity|].
  destruct (ok r); simpl; [|eexists; split; reflexivity].
  destruct (json r) as [d|]; [|eexists; split; reflexivity].
  destruct (valid (validateSiteDataFile (Some d))); simpl; [reflexivity|].
  eexists; split; reflexivity.
Qed.

End LoadData.

Lemma loadData_failure_keeps_snapshot_witness :
  loadData (fetch_ok data_no_title) state_loaded
  = mkApp (siteConfig state_loaded) (sites state_loaded) false (Some "数据验证失败: data")
  /\ loadData (fun _ => FetchRejects ThrownOther) initial_state
     = mkApp (siteConfig initial_state) (Some (JArray [])) false
             (Some "数据加载失败，请检查网络连接").
Proof.
  split.
  - apply (proj1 (proj2 (proj2 (loadData_failure_keeps_snapshot
            (fetch_ok data_no_title) state_loaded)))
            (mkError VALIDATION_ERROR (Some "data") MSG_siteTitle)).
    vm_compute. reflexivity.
  - apply (proj1 (proj2 (proj2 (loadData_failure_keeps_snapshot
            (fun _ => FetchRejects ThrownOther) initial_state)))
            (mkError NETWORK_ERROR None "网络请求失败: 未知网络错误")).
    vm_compute. reflexivity.
Defined.

(** ** Bytes, percent-encoding and UTF-8 *)

(** Decides a statement about every byte by trying all 256 of them. *)
Ltac by_ascii_cases c :=
  destruct c as [[|] [|] [|] [|] [|] [|] [|] [|]]; vm_compute; try done.

Lemma bytes_of_str_of (b : bytes) : bytes_of (str_of b) = b.
Proof. apply list_ascii_of_string_of_list_ascii. Qed.

Lemma str_of_bytes_of (s : string) : str_of (bytes_of s) = s.
Proof. apply string_of_list_ascii_of_string. Qed.

Lemma bytes_of_inj (s t : string) : bytes_of s = bytes_of t -> s = t.
Proof. intros H. by rewrite <- (str_of_bytes_of s), H, str_of_bytes_of. Qed.

Lemma str_of_inj (a b : bytes) : str_of a = str_of b -> a = b.
Proof. intros H. by rewrite <- (bytes_of_str_of a), H, bytes_of_str_of. Qed.

Lemma utf8_decode_cons b r :
  utf8_decode (b :: r) =
  if (code b <=? 127)%N then b :: utf8_decode r
  else
    match utf8_lead b with
    | None => U_FFFD ++ utf8_decode r
    | Some (needed, lo, hi) =>
        match r with
        | [] => U_FFFD
        | c1 :: r1 =>
            if negb (in_range lo hi c1) then U_FFFD ++ utf8_decode r
            else
              match needed with
              | 1%nat => b :: c1 :: utf8_decode r1
              | _ =>
                  match r1 with
                  | [] => U_FFFD
                  | c2 :: r2 =>
                      if negb (is_cont c2) then U_FFFD ++ utf8_decode r1
                      else
                        match needed with
                        | 2%nat => b :: c1 :: c2 :: utf8_decode r2
                        | _ =>
                            match r2 with
                            | [] => U_FFFD
                            | c3 :: r3 =>
                                if negb (is_cont c3) then U_FFFD ++ utf8_decode r2
                                else b :: c1 :: c2 :: c3 :: utf8_decode r3
                            end
                        end
                  end
              end
        end
    end.
Proof. reflexivity. Qed.

Lemma utf8_decode_replacement r :
  utf8_decode (U_FFFD ++ r) = U_FFFD ++ utf8_decode r.
Proof. reflexivity. Qed.

Lemma utf8_lead_needed b needed lo hi :
  utf8_lead b = Some (needed, lo, hi) -> needed = 1%nat \/ needed = 2%nat \/ needed = 3%nat.
Proof.
  unfold utf8_lead. repeat case_match; intros [= <- <- <-]; tauto.
Qed.

Lemma utf8_decode_idem_upto n :
  forall s, length s <= n -> utf8_decode (utf8_decode s) = utf8_decode s.
Proof.
  induction n as [|n IH]; intros s Hlen.
  - destruct s; [reflexivity | simpl in Hlen; lia].
  - destruct s as [|b r]; [reflexivity|]. simpl in Hlen.
    assert (Hr : utf8_decode (utf8_decode r) = utf8_decode r) by (apply IH; lia).
    rewrite (utf8_decode_cons b r).
    destruct (code b <=? 127)%N eqn:Hb.
    { rewrite utf8_decode_cons, Hb. by rewrite Hr. }
    destruct (utf8_lead b) as [[[needed lo] hi]|] eqn:Hlead;
      [|by rewrite utf8_decode_replacement, Hr].
    pose proof (utf8_lead_needed _ _ _ _ Hlead) as Hneeded.
    destruct r as [|c1 r1]; [reflexivity|]. simpl in Hlen.
    destruct (in_range lo hi c1) eqn:Hc1; cbn [negb];
      [|by rewrite utf8_decode_replacement, Hr].
    assert (Hr1 : utf8_decode (utf8_decode r1) = utf8_decode r1) by (apply IH; lia).
    destruct Hneeded as [->|Hneeded].
    { rewrite utf8_decode_cons, Hb, Hlead, Hc1. cbn [negb]. by rewrite Hr1. }
    assert (Hstep : match needed with 1%nat => b :: c1 :: utf8_decode r1 | _ =>
              match r1 with
              | [] => U_FFFD
              | c2 :: r2 =>
                  if negb (is_cont c2) then U_FFFD ++ utf8_decode r1
                  else match needed with
                       | 2%nat => b :: c1 :: c2 :: utf8_decode r2
                       | _ => match r2 with
                              | [] => U_FFFD
                              | c3 :: r3 =>
                                  if negb (is_cont c3) then U_FFFD ++ utf8_decode r2
                                  else b :: c1 :: c2 :: c3 :: utf8_decode r3
                              end
                       end
              end end =
            match r1 with
              | [] => U_FFFD
              | c2 :: r2 =>
                  if negb (is_cont c2) then U_FFFD ++ utf8_decode r1
                  else match needed with
                       | 2%nat => b :: c1 :: c2 :: utf8_decode r2
                       | _ => match r2 with
                              | [] => U_FFFD
                              | c3 :: r3 =>
                                  if negb (is_cont c3) then U_FFFD ++ utf8_decode r2
                                  else b :: c1 :: c2 :: c3 :: utf8_decode r3
                              end
                       end
              end) by (destruct Hneeded as [->| ->]; reflexivity).
    rewrite Hstep. clear Hstep.
    destruct r1 as [|c2 r2]; [reflexivity|]. simpl in Hlen.
    destruct (is_cont c2) eqn:Hc2; cbn [negb];
      [|by rewrite utf8_decode_replacement, Hr1].
    assert (Hr2 : utf8_decode (utf8_decode r2) = utf8_decode r2) by (apply IH; lia).
    destruct Hneeded as [->| ->].
    { rewrite utf8_decode_cons, Hb, Hlead, Hc1. cbn [negb]. rewrite Hc2. cbn [negb]. by rewrite Hr2. }
    destruct r2 as [|c3 r3]; [reflexivity|]. simpl in Hlen.
    destruct (is_cont c3) eqn:Hc3; cbn [negb];
      [|by rewrite utf8_decode_replacement, Hr2].
    rewrite utf8_decode_cons, Hb, Hlead, Hc1. cbn [negb]. rewrite Hc2. cbn [negb]. rewrite Hc3. cbn [negb].
    f_equal. f_equal. f_equal. f_equal. apply IH. lia.
Qed.

Lemma utf8_decode_idem s : utf8_text (utf8_decode s).
Proof. apply (utf8_decode_idem_upto (length s)). lia. Qed.

(** ** application/x-www-form-urlencoded: parsing a serialization *)

Lemma form_encode_cons c x :
  form_encode (c :: x) = form_encode [c] ++ form_encode x.
Proof. unfold form_encode, percent_encode. simpl. by rewrite app_nil_r. Qed.

Lemma form_encode_byte_safe c : forallb form_safe (form_encode [c]) = true.
Proof. by_ascii_cases c. Qed.

Lemma percent_decode_plain c r :
  c <> "%"%char -> percent_decode (c :: r) = c :: percent_decode r.
Proof. intros Hc. simpl. by rewrite bool_decide_eq_false_2. Qed.

Lemma percent_decode_escape h1 h2 a b r :
  hex_value h1 = Some a -> hex_value h2 = Some b ->
  percent_decode ("%"%char :: h1 :: h2 :: r) = ascii_of_N (16 * a + b) :: percent_decode r.
Proof. intros H1 H2. simpl. by rewrite H1, H2. Qed.

Lemma form_encode_byte_shape c :
  decodes_to c (map plus_to_space (form_encode [c])) = true.
Proof. by_ascii_cases c. Qed.

Lemma form_encode_byte_decode c r :
  percent_decode (map plus_to_space (form_encode [c]) ++ r) = c :: percent_decode r.
Proof.
  pose proof (form_encode_byte_shape c) as H. unfold decodes_to in H.
  destruct (map plus_to_space (form_encode [c])) as [|c1 [|c2 [|c3 [|c4 x]]]];
    try discriminate H.
  - apply andb_true_iff in H as [H1 H2].
    apply bool_decide_eq_true in H1 as ->. apply negb_true_iff, bool_decide_eq_false in H2.
    by apply percent_decode_plain.
  - apply andb_true_iff in H as [H1 H2]. apply bool_decide_eq_true in H1 as ->.
    destruct (hex_value c2) as [a|] eqn:Ha; [|discriminate].
    destruct (hex_value c3) as [b|] eqn:Hb; [|discriminate].
    apply bool_decide_eq_true in H2 as <-.
    by apply percent_decode_escape.
Qed.

Lemma form_encode_safe x : Forall (fun c => form_safe c = true) (form_encode x).
Proof.
  induction x as [|c x IH]; [constructor|].
  rewrite form_encode_cons. apply Forall_app. split; [|done].
  apply Forall_forall. intros c' Hc'.
  pose proof (form_encode_byte_safe c) as H.
  rewrite forallb_forall in H. apply H. by apply list_elem_of_In.
Qed.

Lemma form_encode_decode x :
  percent_decode (map plus_to_space (form_encode x)) = x.
Proof.
  induction x as [|c x IH]; [reflexivity|].
  rewrite form_encode_cons, map_app, form_encode_byte_decode. by rewrite IH.
Qed.

Lemma form_decode_encode x : utf8_text x -> form_decode (form_encode x) = x.
Proof. intros Hx. unfold form_decode. by rewrite form_encode_decode. Qed.

Lemma split_on_no_sep sep (a : bytes) :
  Forall (fun c => sep c = false) a -> split_on sep a = [a].
Proof.
  induction 1 as [|c a Hc Ha IH]; [reflexivity|].
  simpl. by rewrite Hc, IH.
Qed.

Lemma split_on_app sep (a b : bytes) c :
  Forall (fun c => sep c = false) a -> sep c = true ->
  split_on sep (a ++ c :: b) = a :: split_on sep b.
Proof.
  intros Ha Hc. induction Ha as [|d a Hd Ha IH]; simpl.
  - by rewrite Hc.
  - by rewrite Hd, IH.
Qed.

Lemma split_first_no_sep sep (a : bytes) :
  Forall (fun c => c <> sep) a -> split_first sep a = (a, None).
Proof.
  induction 1 as [|c a Hc Ha IH]; [reflexivity|].
  simpl. rewrite bool_decide_eq_false_2 by done. by rewrite IH.
Qed.

Lemma split_first_app sep (a b : bytes) :
  Forall (fun c => c <> sep) a -> split_first sep (a ++ sep :: b) = (a, Some b).
Proof.
  induction 1 as [|c a Hc Ha IH]; simpl.
  - by rewrite bool_decide_eq_true_2.
  - rewrite bool_decide_eq_false_2 by done. by rewrite IH.
Qed.

Lemma form_safe_not_sep c : form_safe c = true -> c <> "="%char /\ c <> "&"%char.
Proof. by_ascii_cases c. Qed.

Lemma form_parse_pair_serialize p :
  pair_text p -> form_parse_pair (form_serialize_pair p) = Some p.
Proof.
  destruct p as [n v]. intros [Hn Hv]. simpl in *.
  unfold form_parse_pair, form_serialize_pair. simpl.
  rewrite split_first_app.
  - simpl. rewrite !form_decode_encode by done.
    destruct (form_encode n ++ "="%char :: form_encode v) eqn:E; [|done].
    by destruct (form_encode n).
  - eapply Forall_impl; [apply form_encode_safe|].
    intros c Hc. by apply form_safe_not_sep.
Qed.

Lemma form_serialize_pair_no_amp p :
  Forall (fun c => bool_decide (c = "&"%char) = false) (form_serialize_pair p).
Proof.
  unfold form_serialize_pair. apply Forall_app. split; [|constructor]; [| done |].
  all: eapply Forall_impl; [apply form_encode_safe|].
  all: intros c Hc; apply bool_decide_eq_false_2; by apply form_safe_not_sep.
Qed.

Lemma form_serialize_one p : form_serialize [p] = form_serialize_pair p.
Proof. simpl. apply app_nil_r. Qed.

Lemma form_serialize_more p p' l :
  form_serialize (p :: p' :: l)
  = form_serialize_pair p ++ "&"%char :: form_serialize (p' :: l).
Proof. reflexivity. Qed.

Lemma form_parse_serialize l :
  Forall pair_text l -> form_parse (form_serialize l) = l.
Proof.
  induction 1 as [|p l Hp Hl IH]; [reflexivity|].
  unfold form_parse in *. destruct l as [|p' l'].
  - rewrite form_serialize_one, split_on_no_sep by apply form_serialize_pair_no_amp.
    cbn [omap list_omap]. by rewrite form_parse_pair_serialize.
  - rewrite form_serialize_more.
    rewrite split_on_app by (apply form_serialize_pair_no_amp || done).
    cbn [omap list_omap]. rewrite form_parse_pair_serialize by done. by rewrite IH.
Qed.

Lemma form_parse_text q : Forall pair_text (form_parse q).
Proof.
  unfold form_parse. apply Forall_forall. intros p Hp.
  apply list_elem_of_omap in Hp as (s & _ & Hs).
  unfold form_parse_pair in Hs. destruct s as [|c s]; [done|].
  destruct (split_first "="%char (c :: s)) as [n v]. injection Hs as <-.
  split; apply utf8_decode_idem.
Qed.

Lemma form_serialize_nil l : form_serialize l = [] <-> l = [].
Proof.
  split; [|by intros ->]. destruct l as [|[n v] l]; [done|].
  simpl. unfold form_serialize_pair. simpl. by destruct (form_encode n).
Qed.

Lemma form_serialize_safe l : Forall (fun c => query_safe c = true) (form_serialize l).
Proof.
  assert (Hs : forall x, Forall (fun c => query_safe c = true) (form_encode x)).
  { intros x. eapply Forall_impl; [apply form_encode_safe|].
    intros c Hc. unfold query_safe. by rewrite Hc. }
  induction l as [|p l IH]; [constructor|].
  simpl. unfold form_serialize_pair. rewrite <- !app_assoc.
  apply Forall_app. split; [apply Hs|]. simpl. constructor; [done|].
  apply Forall_app. split; [apply Hs|].
  destruct l; [constructor|]. constructor; [done | exact IH].
Qed.

(** ** The sanitizer, for every URL parser *)

Section Sanitizer.

Context {parser : URLParser}.

Implicit Types (url : string) (u : URLRecord) (o : URLObject).
Implicit Types (l : list (bytes * bytes)) (names : list string).

Lemma forEach_delete names o :
  forEach (fun param o => Normal (searchParams_delete param o)) names o
  = Normal (fold_left (fun o n => searchParams_delete n o) names o).
Proof.
  revert o. induction names as [|n names IH]; intros o; simpl; [done|]. apply IH.
Qed.

Lemma keep_names_cons n names l :
  keep_names names (filter (fun p => p.1 ≠ bytes_of n) l) = keep_names (n :: names) l.
Proof.
  unfold keep_names. rewrite list_filter_filter. apply list_filter_iff.
  intros p. simpl. rewrite not_elem_of_cons. tauto.
Qed.

Lemma set_query_set_query u q q' : set_query (set_query u q) q' = set_query u q'.
Proof. reflexivity. Qed.

Lemma delete_all n names o :
  fold_left (fun o n => searchParams_delete n o) (n :: names) o
  = mkURLObject
      (set_query (url_record o) (query_of_params (keep_names (n :: names) (params o))))
      (keep_names (n :: names) (params o)).
Proof.
  revert n o. induction names as [|m names IH]; intros n o.
  - simpl. unfold searchParams_delete, keep_names. simpl.
    assert (Heq : filter (fun p => p.1 ≠ bytes_of n) (params o)
                  = filter (fun p => p.1 ∉ [bytes_of n]) (params o)).
    { apply list_filter_iff. intros p. rewrite list_elem_of_singleton. tauto. }
    by rewrite Heq.
  - change (fold_left (fun o n => searchParams_delete n o) (n :: m :: names) o)
      with (fold_left (fun o n => searchParams_delete n o) (m :: names)
              (searchParams_delete n o)).
    rewrite IH. unfold searchParams_delete at 1 2 3. simpl.
    by rewrite set_query_set_query, !keep_names_cons.
Qed.

Lemma keep_names_tracking l : keep_names TRACKING_PARAMS l = strip_tracking l.
Proof. reflexivity. Qed.

Lemma cleanTrackingParams_valid url u :
  basic_URL_parse (bytes_of url) = Some u ->
  cleanTrackingParams url = Normal (str_of (URL_serialize (cleaned_record u))).
Proof.
  intros Hu. unfold cleanTrackingParams, URL_new. rewrite Hu. cbn [cbind].
  rewrite forEach_delete. cbn [cbind try_catch].
  unfold TRACKING_PARAMS at 1. rewrite delete_all. reflexivity.
Qed.

Lemma hasTrackingParams_valid url u :
  basic_URL_parse (bytes_of url) = Some u ->
  hasTrackingParams url = Normal (bool_decide (Exists tracked (URL_params u))).
Proof.
  intros Hu. unfold hasTrackingParams, URL_new. rewrite Hu. cbn [cbind try_catch].
  f_equal. fold (URL_params u). apply eq_true_iff_eq.
  rewrite existsb_exists, bool_decide_eq_true, Exists_exists. split.
  - intros (n & Hn & Hhas). unfold searchParams_has in Hhas. cbn [params] in Hhas.
    apply existsb_exists in Hhas as (p & Hp & Hpn).
    apply bool_decide_eq_true in Hpn.
    exists p. split; [by apply list_elem_of_In|].
    unfold tracked. rewrite Hpn. apply list_elem_of_fmap. exists n.
    split; [done | by apply list_elem_of_In].
  - intros (p & Hp & Htr). unfold tracked in Htr.
    apply list_elem_of_fmap in Htr as (n & Hpn & Hn).
    exists n. split; [by apply list_elem_of_In|].
    unfold searchParams_has. cbn [params]. apply existsb_exists.
    exists p. split; [by apply list_elem_of_In | by apply bool_decide_eq_true].
Qed.

Lemma cleanTrackingParams_invalid url :
  basic_URL_parse (bytes_of url) = None -> cleanTrackingParams url = Normal url.
Proof. intros Hu. unfold cleanTrackingParams, URL_new. by rewrite Hu. Qed.

Lemma hasTrackingParams_invalid url :
  basic_URL_parse (bytes_of url) = None -> hasTrackingParams url = Normal false.
Proof. intros Hu. unfold hasTrackingParams, URL_new. by rewrite Hu. Qed.

Lemma URL_params_set_query u l :
  Forall pair_text l -> URL_params (set_query u (query_of_params l)) = l.
Proof.
  intros Hl. unfold URL_params, query_of_params. simpl.
  destruct (form_serialize l) as [|c q] eqn:E.
  - apply form_serialize_nil in E. by subst.
  - simpl. rewrite <- E. by apply form_parse_serialize.
Qed.

Lemma strip_tracking_text l : Forall pair_text l -> Forall pair_text (strip_tracking l).
Proof.
  intros H. apply Forall_forall. intros p Hp.
  apply list_elem_of_filter in Hp as [_ Hp]. rewrite Forall_forall in H. by apply H.
Qed.

Lemma strip_tracking_idem l : strip_tracking (strip_tracking l) = strip_tracking l.
Proof.
  unfold strip_tracking. rewrite list_filter_filter. apply list_filter_iff. tauto.
Qed.

Lemma URL_params_cleaned u : URL_params (cleaned_record u) = strip_tracking (URL_params u).
Proof.
  apply URL_params_set_query, strip_tracking_text, form_parse_text.
Qed.

Lemma cleaned_record_idem u : cleaned_record (cleaned_record u) = cleaned_record u.
Proof.
  unfold cleaned_record at 1. rewrite URL_params_cleaned, strip_tracking_idem.
  reflexivity.
Qed.

Lemma strip_tracking_id l : ~ Exists tracked l -> strip_tracking l = l.
Proof.
  intros H. unfold strip_tracking. induction l as [|p l IH]; [done|].
  rewrite Exists_cons in H. rewrite filter_cons_True by tauto.
  f_equal. apply IH. tauto.
Qed.

Lemma strip_tracking_shorter l :
  Exists tracked l -> length (strip_tracking l) < length l.
Proof.
  unfold strip_tracking. induction 1 as [p l Hp|p l Hl IH].
  - rewrite filter_cons_False by tauto.
    pose proof (length_filter (fun p => ~ tracked p) l). simpl. lia.
  - destruct (decide (tracked p)).
    + rewrite filter_cons_False by tauto. simpl. lia.
    + rewrite filter_cons_True by done. simpl. lia.
Qed.

Context {laws : URLParserLaws parser}.

Lemma parse_cleaned url u :
  basic_URL_parse (bytes_of url) = Some u ->
  basic_URL_parse (URL_serialize (cleaned_record u)) = Some (cleaned_record u).
Proof. intros Hu. unfold cleaned_record. by eapply parse_serialize_query. Qed.

End Sanitizer.

(** ** The special-URL parser reads back what the serializer writes *)

Lemma drop_while_visible (s : bytes) :
  Forall (fun c => visible c = true) s -> drop_while is_C0_or_space s = s.
Proof.
  destruct 1 as [|c s Hc Hs]; [reflexivity|]. simpl.
  unfold visible in Hc. by destruct (is_C0_or_space c).
Qed.

Lemma visible_not_tab c : visible c = true -> negb (is_tab_or_newline c) = true.
Proof. by_ascii_cases c. Qed.

Lemma filter_all {A} (P : A -> Prop) `{forall x, Decision (P x)} (l : list A) :
  Forall P l -> filter P l = l.
Proof.
  induction 1 as [|x l Hx Hl IH]; [reflexivity|].
  rewrite filter_cons_True by done. by rewrite IH.
Qed.

Lemma preprocess_visible (s : bytes) :
  Forall (fun c => visible c = true) s -> preprocess s = s.
Proof.
  intros Hs. unfold preprocess.
  rewrite (drop_while_visible s Hs).
  rewrite drop_while_visible by (by apply Forall_rev).
  rewrite rev_involutive. apply filter_all.
  eapply Forall_impl; [exact Hs|]. intros c Hc.
  apply Is_true_true. by apply visible_not_tab.
Qed.

Lemma percent_encode_cons set c x :
  percent_encode set false (c :: x)
  = percent_encode set false [c] ++ percent_encode set false x.
Proof. unfold percent_encode. simpl. by rewrite app_nil_r. Qed.

Lemma percent_encode_fixed set (x : bytes) :
  Forall (fun c => set c = false) x -> percent_encode set false x = x.
Proof.
  induction 1 as [|c x Hc Hx IH]; [reflexivity|].
  rewrite percent_encode_cons, IH. unfold percent_encode. simpl. by rewrite Hc.
Qed.

(** If encoding one byte yields bytes in [Q] whenever the byte is in [P],
    encoding a sequence does. *)
Lemma percent_encode_Forall set (P Q : ascii -> bool) (x : bytes) :
  (forall c, P c = true -> forallb Q (percent_encode set false [c]) = true) ->
  Forall (fun c => P c = true) x ->
  Forall (fun c => Q c = true) (percent_encode set false x).
Proof.
  intros Hbyte. induction 1 as [|c x Hc Hx IH]; [constructor|].
  rewrite percent_encode_cons. apply Forall_app. split; [|done].
  apply Forall_forall. intros d Hd.
  specialize (Hbyte c Hc). rewrite forallb_forall in Hbyte.
  apply Hbyte. by apply list_elem_of_In.
Qed.

Lemma percent_encode_all set (Q : ascii -> bool) (x : bytes) :
  (forall c, forallb Q (percent_encode set false [c]) = true) ->
  Forall (fun c => Q c = true) (percent_encode set false x).
Proof.
  intros Hbyte. apply (percent_encode_Forall set (fun _ => true)); [done|].
  by apply Forall_forall.
Qed.

Lemma encode_path_byte c :
  negb (is_slash c) = true ->
  forallb segment_byte (percent_encode in_path_set false [c]) = true.
Proof. by_ascii_cases c. Qed.

Lemma encode_query_byte c :
  forallb (fun d => negb (in_special_query_set d) && visible d
                    && negb (bool_decide (d = "#"%char)))
          (percent_encode in_special_query_set false [c]) = true.
Proof. by_ascii_cases c. Qed.

Lemma encode_fragment_byte c :
  forallb (fun d => negb (in_fragment_set d) && visible d)
          (percent_encode in_fragment_set false [c]) = true.
Proof. by_ascii_cases c. Qed.

Lemma segment_byte_facts c :
  segment_byte c = true ->
  in_path_set c = false /\ is_slash c = false /\ visible c = true
  /\ c <> "#"%char /\ c <> "?"%char.
Proof. by_ascii_cases c. Qed.

Lemma host_char_facts c :
  is_host_char c = true ->
  is_host_char (to_lower c) = true /\ is_slash c = false /\ visible c = true
  /\ c <> "#"%char /\ c <> "?"%char.
Proof. by_ascii_cases c. Qed.

Lemma query_safe_facts c :
  query_safe c = true ->
  in_special_query_set c = false /\ visible c = true /\ c <> "#"%char.
Proof. by_ascii_cases c. Qed.

Lemma fragment_byte_facts c :
  negb (in_fragment_set c) && visible c = true ->
  in_fragment_set c = false /\ visible c = true.
Proof. by_ascii_cases c. Qed.

Lemma to_lower_idem c : to_lower (to_lower c) = to_lower c.
Proof. by_ascii_cases c. Qed.

Lemma slash_facts : is_slash "/"%char = true /\ visible "/"%char = true.
Proof. by vm_compute. Qed.

(** *** Paths *)

Lemma split_on_pieces sep (x : bytes) :
  Forall (Forall (fun c => sep c = false)) (split_on sep x) /\ split_on sep x <> [].
Proof.
  induction x as [|c x [IH Hne]]; simpl.
  - split; [by repeat constructor | done].
  - destruct (sep c) eqn:Hc.
    + split; [by constructor | done].
    + destruct (split_on sep x) as [|p ps]; [done|].
      apply Forall_cons in IH as [Hp Hps].
      split; [|done]. constructor; [by constructor | done].
Qed.

Lemma good_segment_nil : good_segment [].
Proof. split; [constructor | by vm_compute]. Qed.

Lemma Forall_removelast {A} (P : A -> Prop) (l : list A) :
  Forall P l -> Forall P (removelast l).
Proof.
  induction 1 as [|x l Hx Hl IH]; [constructor|].
  simpl. destruct l; [constructor | by constructor].
Qed.

Lemma path_state_good pieces p :
  Forall (Forall (fun c => is_slash c = false)) pieces ->
  Forall good_segment p -> pieces <> [] ->
  Forall good_segment (path_state pieces p) /\ path_state pieces p <> [].
Proof.
  revert p. induction pieces as [|piece rest IH]; intros p Hpieces Hp Hne; [done|].
  apply Forall_cons in Hpieces as [Hpiece Hrest].
  assert (Hbuf : Forall (fun c => segment_byte c = true)
                        (percent_encode in_path_set false piece)).
  { apply (percent_encode_Forall _ (fun c => negb (is_slash c)));
      [apply encode_path_byte|].
    eapply Forall_impl; [exact Hpiece|]. intros c Hc. simpl in Hc. by rewrite Hc. }
  assert (Hnil : forall q, Forall good_segment q -> Forall good_segment (q ++ [[]])).
  { intros q Hq. apply Forall_app. split; [done|].
    constructor; [apply good_segment_nil | constructor]. }
  simpl.
  destruct (is_double_dot (percent_encode in_path_set false piece)) eqn:Hdd;
    [|destruct (is_single_dot (percent_encode in_path_set false piece)) eqn:Hsd].
  - destruct rest as [|piece' rest'].
    + split; [apply Hnil; by apply Forall_removelast|]. by destruct (shorten p).
    + apply IH; [done | by apply Forall_removelast | done].
  - destruct rest as [|piece' rest'].
    + split; [by apply Hnil|]. by destruct p.
    + apply IH; done.
  - assert (Hgood : Forall good_segment (p ++ [percent_encode in_path_set false piece])).
    { apply Forall_app. split; [done|]. constructor; [|constructor]. by split. }
    destruct rest as [|piece' rest'].
    + split; [done|]. by destruct p.
    + apply IH; done.
Qed.

Lemma parse_path_good (x : bytes) :
  Forall good_segment (parse_path x) /\ parse_path x <> [].
Proof.
  unfold parse_path. apply path_state_good; [|constructor|]; apply split_on_pieces.
Qed.

Lemma good_segment_fixed s :
  good_segment s -> percent_encode in_path_set false s = s.
Proof.
  intros [Hs _]. apply percent_encode_fixed.
  eapply Forall_impl; [exact Hs|]. intros c Hc. by apply segment_byte_facts.
Qed.

Lemma path_state_fixed pieces p :
  Forall good_segment pieces -> pieces <> [] -> path_state pieces p = p ++ pieces.
Proof.
  revert p. induction pieces as [|piece rest IH]; intros p Hpieces Hne; [done|].
  apply Forall_cons in Hpieces as [Hpiece Hrest].
  simpl. rewrite (good_segment_fixed _ Hpiece).
  destruct Hpiece as (_ & -> & ->).
  destruct rest as [|piece' rest']; [done|].
  rewrite IH by done. by rewrite <- app_assoc.
Qed.

Lemma split_on_serialized seg (segs : list bytes) :
  Forall good_segment (seg :: segs) ->
  split_on is_slash (seg ++ flat_map (fun s => "/"%char :: s) segs) = seg :: segs.
Proof.
  revert seg. induction segs as [|s segs IH]; intros seg Hall.
  - simpl. rewrite app_nil_r. apply split_on_no_sep.
    apply Forall_cons in Hall as [[Hseg _] _].
    eapply Forall_impl; [exact Hseg|]. intros c Hc. by apply segment_byte_facts.
  - apply Forall_cons in Hall as [[Hseg _] Hrest]. simpl.
    rewrite split_on_app; [by rewrite IH | | apply slash_facts].
    eapply Forall_impl; [exact Hseg|]. intros c Hc. by apply segment_byte_facts.
Qed.

Lemma parse_path_serialized (segs : list bytes) :
  Forall good_segment segs -> segs <> [] ->
  parse_path (serialize_path (ListPath segs)) = segs.
Proof.
  intros Hsegs Hne. destruct segs as [|seg segs]; [done|].
  unfold parse_path. simpl.
  rewrite split_on_serialized by done. by apply path_state_fixed.
Qed.

(** *** Schemes and hosts *)

Lemma special_scheme_facts sch :
  sch ∈ special_schemes ->
  (forall rest, parse_scheme (sch ++ ":"%char :: rest) = Some (sch, rest))
  /\ Forall (fun c => visible c = true /\ c <> "#"%char /\ c <> "?"%char) sch.
Proof.
  unfold special_schemes. simpl. rewrite !elem_of_cons, elem_of_nil.
  intros [->|[->|[->|[->|[->|[]]]]]]; (split; [reflexivity|]);
    repeat constructor; done.
Qed.

Lemma map_to_lower_idem (x : bytes) : map to_lower (map to_lower x) = map to_lower x.
Proof. rewrite map_map. apply map_ext. intros c. apply to_lower_idem. Qed.

Lemma parse_host_fixed a h :
  parse_host a = Some h ->
  parse_host h = Some h /\ h <> [] /\ Forall (fun c => is_host_char c = true) h.
Proof.
  unfold parse_host. intros Ha.
  destruct (nonempty a && forallb is_host_char a
            && forallb (fun l => negb (has_prefix (bytes_of "xn--") l))
                 (split_on (fun c => bool_decide (c = "."%char)) (map to_lower a))
            && starts_with_alpha
                 (default [] (last (split_on (fun c => bool_decide (c = "."%char))
                                             (map to_lower a))))) eqn:Hcond;
    [|discriminate].
  injection Ha as <-.
  rewrite !andb_true_iff in Hcond. destruct Hcond as [[[Hne Hchars] Hxn] Hlast].
  assert (Hh : Forall (fun c => is_host_char c = true) (map to_lower a)).
  { rewrite forallb_forall in Hchars. apply Forall_forall. intros c Hc.
    apply list_elem_of_fmap in Hc as (d & -> & Hd).
    apply host_char_facts, Hchars. by apply list_elem_of_In. }
  assert (Hne' : nonempty (map to_lower a) = true) by (by destruct a).
  split; [|split; [by destruct a | done]].
  rewrite map_to_lower_idem, Hne', Hxn, Hlast. simpl.
  replace (forallb is_host_char (map to_lower a)) with true; [done|].
  symmetry. apply forallb_forall. intros c Hc.
  rewrite Forall_forall in Hh. apply Hh. by apply list_elem_of_In.
Qed.

Lemma drop_while_slashes (h rest : bytes) :
  h <> [] -> Forall (fun c => is_host_char c = true) h ->
  drop_while is_slash (bytes_of "//" ++ h ++ rest) = h ++ rest.
Proof.
  intros Hne Hh. destruct h as [|c h]; [done|].
  apply Forall_cons in Hh as [Hc _]. apply host_char_facts in Hc as (_ & Hc & _).
  simpl. change (is_slash "/"%char) with true. simpl. by rewrite Hc.
Qed.

Lemma span_until_slash (a : bytes) (segs : list bytes) :
  Forall (fun c => is_slash c = false) a -> segs <> [] ->
  span_until is_slash (a ++ serialize_path (ListPath segs))
  = (a, serialize_path (ListPath segs)).
Proof.
  intros Ha Hne. induction Ha as [|c a Hc Ha IH]; simpl.
  - destruct segs as [|s segs]; [done|]. reflexivity.
  - rewrite Hc. simpl in IH. by rewrite IH.
Qed.

(** *** Ports *)

Lemma pretty_N_char_value m :
  (m < 10)%N -> (code (pretty_N_char m) - 48)%N = m /\ is_digit (pretty_N_char m) = true.
Proof.
  intros Hm.
  assert (m = 0 \/ m = 1 \/ m = 2 \/ m = 3 \/ m = 4 \/ m = 5 \/ m = 6 \/ m = 7
          \/ m = 8 \/ m = 9)%N as Hcases by lia.
  repeat (destruct Hcases as [->|Hcases]; [by vm_compute|]). subst. by vm_compute.
Qed.

Lemma decimal_value_pretty_go x :
  forall s,
    fold_left (fun acc c => (10 * acc + (code c - 48))%N) (bytes_of (pretty_N_go x s)) 0%N
    = fold_left (fun acc c => (10 * acc + (code c - 48))%N) (bytes_of s) x.
Proof.
  induction (N.lt_wf_0 x) as [x _ IH]. intros s.
  destruct (decide (x = 0%N)) as [->|Hx]; [by rewrite pretty_N_go_0|].
  rewrite pretty_N_go_step by lia.
  rewrite IH by (apply N.div_lt; lia).
  cbn [bytes_of list_ascii_of_string fold_left].
  destruct (pretty_N_char_value (x `mod` 10)) as [-> _]; [by apply N.mod_lt|].
  f_equal. rewrite (N.div_mod x 10) at 3 by done. lia.
Qed.

Lemma digits_pretty_go x :
  forall s, Forall (fun c => is_digit c = true) (bytes_of s) ->
            Forall (fun c => is_digit c = true) (bytes_of (pretty_N_go x s)).
Proof.
  induction (N.lt_wf_0 x) as [x _ IH]. intros s Hs.
  destruct (decide (x = 0%N)) as [->|Hx]; [by rewrite pretty_N_go_0|].
  rewrite pretty_N_go_step by lia. apply IH; [apply N.div_lt; lia|].
  cbn [bytes_of list_ascii_of_string]. constructor; [|exact Hs].
  apply pretty_N_char_value. by apply N.mod_lt.
Qed.

Lemma pretty_N_decimal (n : N) :
  decimal_value (bytes_of (pretty n)) = n
  /\ Forall (fun c => is_digit c = true) (bytes_of (pretty n))
  /\ nonempty (bytes_of (pretty n)) = true.
Proof.
  unfold pretty, pretty_N. destruct (decide (n = 0%N)) as [->|Hn].
  - split; [reflexivity|]. split; [by repeat constructor | reflexivity].
  - assert (Hval : decimal_value (bytes_of (pretty_N_go n "")) = n)
      by apply decimal_value_pretty_go.
    split; [exact Hval|]. split; [apply digits_pretty_go; constructor|].
    destruct (bytes_of (pretty_N_go n "")); [|reflexivity].
    by vm_compute in Hval.
Qed.

Lemma parse_port_fixed sch input p :
  parse_port sch input = Some p -> parse_port sch (port_digits p) = Some p.
Proof.
  destruct p as [n|]; [|reflexivity]. intros Hp.
  assert (Hn : (65535 <? n)%N = false /\ bool_decide (default_port sch = Some n) = false).
  { unfold parse_port in Hp. destruct input as [digits|]; [|discriminate].
    destruct (forallb is_digit digits); [|discriminate].
    destruct (nonempty digits); [|discriminate]. cbn [negb] in Hp.
    destruct (65535 <? decimal_value digits)%N eqn:Hle; [discriminate|].
    destruct (bool_decide (default_port sch = Some (decimal_value digits))) eqn:Hdef;
      [discriminate|].
    injection Hp as <-. by split. }
  destruct Hn as [Hle Hdef].
  destruct (pretty_N_decimal n) as (Hval & Hdigits & Hne).
  unfold parse_port, port_digits. cbn [fmap option_fmap option_map].
  replace (forallb is_digit (bytes_of (pretty n))) with true.
  - rewrite Hne. cbn [negb]. by rewrite Hval, Hle, Hdef.
  - symmetry. apply forallb_forall. intros c Hc.
    rewrite Forall_forall in Hdigits. apply Hdigits. by apply list_elem_of_In.
Qed.

Lemma port_digits_bytes p :
  Forall (fun c => is_digit c = true) (default [] (port_digits p)).
Proof.
  destruct p as [n|]; [|constructor]. apply pretty_N_decimal.
Qed.

Lemma digit_facts c :
  is_digit c = true ->
  is_slash c = false /\ visible c = true /\ c <> "#"%char /\ c <> "?"%char.
Proof. by_ascii_cases c. Qed.

Lemma host_char_not_colon c : is_host_char c = true -> c <> ":"%char.
Proof. by_ascii_cases c. Qed.

(** *** The whole URL *)

Lemma split_first_opt_part sep (a : bytes) o :
  Forall (fun c => c <> sep) a -> split_first sep (a ++ opt_part sep o) = (a, o).
Proof.
  intros Ha. destruct o as [x|]; simpl.
  - by apply split_first_app.
  - rewrite app_nil_r. by apply split_first_no_sep.
Qed.

Lemma URL_serialize_special sch h p segs q f :
  URL_serialize (mkURL sch [] [] (Some h) p (ListPath segs) q f)
  = ((sch ++ ":"%char :: bytes_of "//"
          ++ h ++ (opt_part ":"%char (port_digits p) ++ serialize_path (ListPath segs)))
     ++ opt_part "?"%char q) ++ opt_part "#"%char f.
Proof.
  unfold URL_serialize, serialize_authority, opt_part.
  cbn [scheme host username password port path query fragment nonempty orb
       bytes_of list_ascii_of_string port_digits fmap option_fmap option_map].
  destruct p as [n|]; cbn [fmap option_fmap option_map];
    repeat (progress (rewrite <- ?app_assoc, ?app_nil_r; cbn [app])); reflexivity.
Qed.

Lemma serialize_path_bytes segs :
  Forall good_segment segs -> Forall body_byte (serialize_path (ListPath segs)).
Proof.
  induction 1 as [|s segs [Hs _] Hsegs IH]; [constructor|].
  simpl. constructor; [by vm_compute|]. apply Forall_app. split; [|exact IH].
  eapply Forall_impl; [exact Hs|]. intros c Hc.
  apply segment_byte_facts in Hc. unfold body_byte. tauto.
Qed.

Lemma port_part_bytes p :
  Forall body_byte (opt_part ":"%char (port_digits p))
  /\ Forall (fun c => is_slash c = false) (opt_part ":"%char (port_digits p)).
Proof.
  pose proof (port_digits_bytes p) as Hp.
  destruct (port_digits p) as [digits|]; [|by split; constructor].
  cbn [opt_part default] in *. split; (constructor; [by vm_compute|]).
  all: eapply Forall_impl; [exact Hp|]; intros c Hc; apply digit_facts in Hc.
  all: unfold body_byte; tauto.
Qed.

Lemma special_body_bytes sch h p segs :
  sch ∈ special_schemes -> Forall (fun c => is_host_char c = true) h ->
  Forall good_segment segs ->
  Forall body_byte
    (sch ++ ":"%char :: bytes_of "//"
         ++ h ++ (opt_part ":"%char (port_digits p) ++ serialize_path (ListPath segs))).
Proof.
  intros Hsch Hh Hsegs. apply Forall_app. split.
  - by apply special_scheme_facts.
  - constructor; [by vm_compute|]. cbn [bytes_of list_ascii_of_string app].
    constructor; [by vm_compute|]. constructor; [by vm_compute|].
    apply Forall_app. split.
    + eapply Forall_impl; [exact Hh|]. intros c Hc.
      apply host_char_facts in Hc. unfold body_byte. tauto.
    + apply Forall_app. split; [apply port_part_bytes | by apply serialize_path_bytes].
Qed.

Ltac weaken H :=
  eapply Forall_impl; [exact H|];
  unfold body_byte, query_byte, fragment_byte; intros ? ?; cbv beta in *; tauto.

Lemma special_url_parse_serialize u :
  special_record u -> special_url_parse (URL_serialize u) = Some u.
Proof.
  intros (sch & h & segs & Hu & Hsch & Hhost & Hne & Hh & Hport & Hsegs & Hsne & Hq & Hf).
  rewrite Hu at 1. rewrite URL_serialize_special.
  set (pp := opt_part ":"%char (port_digits (port u))).
  set (body := sch ++ ":"%char :: bytes_of "//"
                   ++ h ++ (pp ++ serialize_path (ListPath segs))).
  pose proof (special_body_bytes sch h (port u) segs Hsch Hh Hsegs) as Hbody.
  fold pp in Hbody. fold body in Hbody.
  assert (Hpre : Forall (fun c => visible c = true /\ c <> "#"%char)
                        (body ++ opt_part "?"%char (query u))).
  { apply Forall_app. split; [weaken Hbody|].
    destruct (query u) as [q|]; [|constructor]. cbn [opt_part opt_Forall] in *.
    constructor; [by vm_compute | weaken Hq]. }
  unfold special_url_parse. rewrite preprocess_visible.
  2:{ apply Forall_app. split; [weaken Hpre|].
      destruct (fragment u) as [f|]; [|constructor]. cbn [opt_part opt_Forall] in *.
      constructor; [by vm_compute | weaken Hf]. }
  rewrite split_first_opt_part by weaken Hpre.
  rewrite split_first_opt_part by weaken Hbody.
  unfold body. rewrite (proj1 (special_scheme_facts sch Hsch)).
  rewrite bool_decide_eq_true_2 by done.
  rewrite drop_while_slashes by done.
  rewrite app_assoc, span_until_slash; [| |done].
  2:{ apply Forall_app. split; [|apply port_part_bytes].
      eapply Forall_impl; [exact Hh|]. intros c Hc. by apply host_char_facts. }
  unfold pp. rewrite split_first_opt_part.
  2:{ eapply Forall_impl; [exact Hh|]. intros c Hc. by apply host_char_not_colon. }
  rewrite Hhost, Hport, parse_path_serialized by done.
  rewrite Hu at 4. do 2 f_equal.
  - destruct (query u) as [q|]; [|done]. cbn [opt_Forall fmap option_fmap option_map] in *.
    f_equal. apply percent_encode_fixed. weaken Hq.
  - destruct (fragment u) as [f|]; [|done]. cbn [opt_Forall fmap option_fmap option_map] in *.
    f_equal. apply percent_encode_fixed. weaken Hf.
Qed.

Lemma special_url_parse_record input u :
  special_url_parse input = Some u -> special_record u.
Proof.
  unfold special_url_parse.
  destruct (split_first "#"%char (preprocess input)) as [pre frag].
  destruct (split_first "?"%char pre) as [body qry].
  destruct (parse_scheme body) as [[sch rest]|]; [|discriminate].
  destruct (bool_decide (sch ∈ special_schemes)) eqn:Hsch; [|discriminate].
  apply bool_decide_eq_true in Hsch.
  destruct (span_until is_slash (drop_while is_slash rest)) as [authority rest'].
  destruct (split_first ":"%char authority) as [hostname after_colon].
  destruct (parse_host hostname) as [h|] eqn:Hhost; [|discriminate].
  destruct (parse_port sch after_colon) as [p|] eqn:Hport; [|discriminate].
  intros [= <-]. apply parse_host_fixed in Hhost as (Hfix & Hne & Hh).
  apply parse_port_fixed in Hport.
  pose proof (parse_path_good rest') as [Hsegs Hsne].
  exists sch, h, (parse_path rest'). simpl.
  repeat split; try done.
  - destruct qry as [q|]; [|done]. simpl.
    eapply Forall_impl.
    + apply percent_encode_all, encode_query_byte.
    + intros c Hc. simpl in Hc. rewrite !andb_true_iff, !negb_true_iff in Hc.
      destruct Hc as [[Hc1 Hc2] Hc3]. apply bool_decide_eq_false in Hc3.
      by repeat split.
  - destruct frag as [f|]; [|done]. simpl.
    eapply Forall_impl.
    + apply percent_encode_all, encode_fragment_byte.
    + intros c Hc. simpl in Hc. by apply fragment_byte_facts.
Qed.

Lemma special_record_set_query u l :
  special_record u -> special_record (set_query u (query_of_params l)).
Proof.
  intros (sch & h & segs & Hu & Hrest). exists sch, h, segs.
  destruct Hrest as (? & ? & ? & ? & ? & ? & ? & _ & Hf).
  rewrite Hu. simpl. repeat split; try done.
  unfold query_of_params. pose proof (form_serialize_safe l) as Hl.
  destruct (form_serialize l) as [|c q]; [done|]. simpl.
  eapply Forall_impl; [exact Hl|]. intros d Hd.
  apply query_safe_facts in Hd. unfold query_byte. tauto.
Qed.

#[global] Instance special_url_parser_laws : URLParserLaws special_url_parser.
Proof.
  constructor. intros input u l Hu. simpl in *.
  apply special_url_parse_serialize, special_record_set_query.
  by eapply special_url_parse_record.
Qed.

(** ** The sanitizer: the stated properties *)

Section SanitizerClaims.

Context {parser : URLParser}.

Implicit Types (url : string) (u : URLRecord).

(** C8: on an input that is not a syntactically valid URL the sanitizer
    returns the input itself; and on no input at all does it throw. *)
Theorem cleanTrackingParams_malformed :
  (forall url, ~ valid_URL url -> cleanTrackingParams url = Normal url)
  /\ (forall url, exists s, cleanTrackingParams url = Normal s).
Proof.
  split.
  - intros url Hinv. apply cleanTrackingParams_invalid.
    unfold valid_URL in Hinv.
    destruct (basic_URL_parse (bytes_of url)); [|done].
    exfalso. apply Hinv. by eexists.
  - intros url. destruct (basic_URL_parse (bytes_of url)) as [u|] eqn:Hu.
    + eexists. by apply cleanTrackingParams_valid.
    + eexists. by apply cleanTrackingParams_invalid.
Qed.

Context {laws : URLParserLaws parser}.

Lemma cleanTrackingParams_again url u :
  basic_URL_parse (bytes_of url) = Some u ->
  cleanTrackingParams (str_of (URL_serialize (cleaned_record u)))
  = Normal (str_of (URL_serialize (cleaned_record u))).
Proof.
  intros Hu.
  rewrite (cleanTrackingParams_valid _ (cleaned_record u)).
  - by rewrite cleaned_record_idem.
  - rewrite bytes_of_str_of. by eapply parse_cleaned.
Qed.

(** C6: sanitizing the result of the sanitizer returns it unchanged. *)
Theorem cleanTrackingParams_idempotent url :
  valid_URL url ->
  exists s, cleanTrackingParams url = Normal s /\ cleanTrackingParams s = Normal s.
Proof.
  intros [u Hu]. exists (str_of (URL_serialize (cleaned_record u))). split.
  - by apply cleanTrackingParams_valid.
  - by eapply cleanTrackingParams_again.
Qed.

Lemma URL_params_canonical u l :
  Forall pair_text l -> query u = query_of_params l -> URL_params u = l.
Proof.
  intros Hl Hq. rewrite <- (URL_params_set_query u l Hl).
  unfold URL_params. by rewrite Hq.
Qed.

(** C5, as the code has it: the sanitized URL is the serialization of the
    parsed URL with
    only its query replaced. The new query is the form-urlencoded
    serialization of the parameters of the input, as [searchParams] lists
    them (name and value decoded), without those whose name is on the
    deny-list and in the same order: the parameters left keep name, value
    and order, while their text is written anew by the serializer. When
    the query of the input is already the serialization of a list of
    parameters, the new query is the serialization of the same list
    without the deny-listed ones, so that the text of each parameter left
    is the one it had. The example of the specification evaluates as
    stated. *)
Theorem cleanTrackingParams_removes_tracked :
  (forall url u,
     basic_URL_parse (bytes_of url) = Some u ->
     exists s u',
       cleanTrackingParams url = Normal s
       /\ s = str_of (URL_serialize u')
       /\ basic_URL_parse (bytes_of s) = Some u'
       /\ u' = set_query u (query u')
       /\ query u'
          = query_of_params
              (filter (fun p => p.1 ∉ map bytes_of TRACKING_PARAMS)
                      (form_parse (default [] (query u))))
       /\ URL_params u' = filter (fun p => p.1 ∉ map bytes_of TRACKING_PARAMS) (URL_params u)
       /\ (forall p, p ∈ URL_params u' <-> p ∈ URL_params u /\ ~ tracked p)
       /\ sublist (URL_params u') (URL_params u))
  /\ (forall url u l,
        basic_URL_parse (bytes_of url) = Some u ->
        Forall pair_text l ->
        query u = query_of_params l ->
        cleanTrackingParams url
        = Normal (str_of (URL_serialize
                    (set_query u
                       (query_of_params
                          (filter (fun p => p.1 ∉ map bytes_of TRACKING_PARAMS) l))))))
  /\ clean "https://a.com/?utm_source=x&keep=1" = Normal "https://a.com/?keep=1".
Proof.
  split; [|split; [|by vm_compute]].
  - intros url u Hu.
    exists (str_of (URL_serialize (cleaned_record u))), (cleaned_record u).
    assert (Hparams : URL_params (cleaned_record u) = strip_tracking (URL_params u))
      by apply URL_params_cleaned.
    split; [by apply cleanTrackingParams_valid|].
    split; [reflexivity|].
    split; [rewrite bytes_of_str_of; by eapply parse_cleaned|].
    split; [reflexivity|]. split; [reflexivity|]. split; [exact Hparams|]. split.
    + intros p. rewrite Hparams. unfold strip_tracking.
      rewrite list_elem_of_filter. tauto.
    + rewrite Hparams. apply sublist_filter.
  - intros url u l Hu Hl Hq. rewrite (cleanTrackingParams_valid url u Hu).
    unfold cleaned_record. by rewrite (URL_params_canonical u l Hl Hq).
Qed.

Lemma tracked_changes_params u :
  Exists tracked (URL_params u) -> cleaned_record u <> renormalized_record u
                                   /\ cleaned_record u <> u.
Proof.
  intros Hex. pose proof (strip_tracking_shorter _ Hex) as Hlen.
  split; intros Heq; apply (f_equal URL_params) in Heq;
    rewrite URL_params_cleaned in Heq.
  - unfold renormalized_record in Heq.
    rewrite URL_params_set_query in Heq by apply form_parse_text.
    rewrite Heq in Hlen. lia.
  - rewrite Heq in Hlen. lia.
Qed.

(** C1, as the code has it: [hasTrackingParams] tells whether a parameter
    of the parsed query has a deny-listed name. That is the case exactly
    when the sanitized URL differs from the normalized serialization of the
    URL, and then it also differs from the URL as given; the converse of the
    latter is not claimed. *)
Theorem hasTrackingParams_spec url u :
  basic_URL_parse (bytes_of url) = Some u ->
  exists b,
    hasTrackingParams url = Normal b
    /\ (b = true <-> Exists tracked (URL_params u))
    /\ (b = true <-> cleanTrackingParams url <> Normal (URL_normalize u))
    /\ (b = true -> cleanTrackingParams url <> Normal url).
Proof.
  intros Hu. exists (bool_decide (Exists tracked (URL_params u))).
  split; [by apply hasTrackingParams_valid|].
  rewrite bool_decide_eq_true. split; [done|].
  rewrite (cleanTrackingParams_valid url u Hu). split; [split|].
  - intros Hex [= Heq]. apply str_of_inj in Heq.
    pose proof (parse_cleaned url u Hu) as Hc.
    assert (Hn : basic_URL_parse (URL_serialize (renormalized_record u))
                 = Some (renormalized_record u))
      by (unfold renormalized_record; by eapply parse_serialize_query).
    rewrite Heq, Hn in Hc.
    apply (proj1 (tracked_changes_params u Hex)). congruence.
  - intros Hne. destruct (decide (Exists tracked (URL_params u))) as [|Hnex]; [done|].
    exfalso. apply Hne. unfold URL_normalize, cleaned_record, renormalized_record.
    by rewrite (strip_tracking_id _ Hnex).
  - intros Hex [= Heq].
    pose proof (parse_cleaned url u Hu) as Hc.
    apply (f_equal bytes_of) in Heq. rewrite bytes_of_str_of in Heq.
    rewrite Heq, Hu in Hc.
    apply (proj2 (tracked_changes_params u Hex)). congruence.
Qed.

End SanitizerClaims.

(** ** The sanitizer on concrete URLs *)

Lemma cleanTrackingParams_malformed_witness :
  ~ @valid_URL special_url_parser "not a url" /\ clean "not a url" = Normal "not a url".
Proof.
  assert (Hinv : ~ @valid_URL special_url_parser "not a url").
  { unfold valid_URL. vm_compute. intros [u Hu]. discriminate Hu. }
  split; [exact Hinv|].
  exact (proj1 (@cleanTrackingParams_malformed special_url_parser) "not a url" Hinv).
Defined.

Lemma cleanTrackingParams_idempotent_witness :
  exists s, clean "HTTPS://A.com/a/../b?x=a%20b&fbclid=3&y#top" = Normal s
            /\ clean s = Normal s.
Proof.
  apply (@cleanTrackingParams_idempotent special_url_parser special_url_parser_laws).
  unfold valid_URL. vm_compute. eexists. reflexivity.
Defined.

Lemma cleanTrackingParams_removes_tracked_witness :
  (exists s u',
     clean "https://a.com/?utm_source=x&keep=1&ref=y&keep=2" = Normal s
     /\ special_url_parse (bytes_of s) = Some u'
     /\ query u' = Some (bytes_of "keep=1&keep=2")
     /\ URL_params u' = [(bytes_of "keep", bytes_of "1"); (bytes_of "keep", bytes_of "2")])
  /\ clean "https://a.com/?k=%E4%BD%A0&utm_source=x&q=a+b&n=%C3%A9"
     = Normal "https://a.com/?k=%E4%BD%A0&q=a+b&n=%C3%A9".
Proof.
  split.
  - destruct (proj1 (@cleanTrackingParams_removes_tracked special_url_parser
                       special_url_parser_laws)
                "https://a.com/?utm_source=x&keep=1&ref=y&keep=2"
                (mkURL (bytes_of "https") [] [] (Some (bytes_of "a.com")) None
                       (ListPath [[]])
                       (Some (bytes_of "utm_source=x&keep=1&ref=y&keep=2")) None))
      as (s & u' & Hs & _ & Hu' & _ & Hquery & Hparams & _).
    { vm_compute. reflexivity. }
    exists s, u'. split; [exact Hs|]. split; [exact Hu'|]. split.
    + rewrite Hquery. vm_compute. reflexivity.
    + rewrite Hparams. vm_compute. reflexivity.
  - unfold clean.
    rewrite (proj1 (proj2 (@cleanTrackingParams_removes_tracked special_url_parser
                             special_url_parser_laws))
               "https://a.com/?k=%E4%BD%A0&utm_source=x&q=a+b&n=%C3%A9"
               (mkURL (bytes_of "https") [] [] (Some (bytes_of "a.com")) None
                      (ListPath [[]])
                      (Some (bytes_of "k=%E4%BD%A0&utm_source=x&q=a+b&n=%C3%A9")) None)
               [(bytes_of "k", map ascii_of_nat [228; 189; 160]);
                (bytes_of "utm_source", bytes_of "x");
                (bytes_of "q", bytes_of "a b");
                (bytes_of "n", map ascii_of_nat [195; 169])]).
    + vm_compute. reflexivity.
    + vm_compute. reflexivity.
    + repeat constructor; vm_compute; reflexivity.
    + vm_compute. reflexivity.
Defined.

(** The parameters that are kept do not come back untouched: [q=a%20b]
    and [flag] are written anew as [q=a+b] and [flag=], also when no
    parameter is removed, and the byte [%FF], which is not UTF-8, comes
    back as the three bytes of U+FFFD. *)
Lemma cleanTrackingParams_rewrites_kept :
  @valid_URL special_url_parser "https://a.com/?q=a%20b&flag&utm_source=x"
  /\ clean "https://a.com/?q=a%20b&flag&utm_source=x" = Normal "https://a.com/?q=a+b&flag="
  /\ clean "https://a.com/?q=a%20b&flag" = Normal "https://a.com/?q=a+b&flag="
  /\ clean "https://a.com/?a=%FF&utm_id=3" = Normal "https://a.com/?a=%EF%BF%BD"
  /\ percent_decode (bytes_of "%FF") <> percent_decode (bytes_of "%EF%BF%BD").
Proof.
  split; [unfold valid_URL; vm_compute; by eexists|].
  split; [by vm_compute|]. split; [by vm_compute|]. split; [by vm_compute|].
  vm_compute. discriminate.
Qed.

(** [https://a.com] has no tracking parameter, yet the sanitizer returns a
    different string: the serialization adds the path [/]. *)
Lemma hasTrackingParams_false_but_changed :
  @valid_URL special_url_parser "https://a.com"
  /\ has_tracking "https://a.com" = Normal false
  /\ clean "https://a.com" = Normal "https://a.com/"
  /\ "https://a.com/" <> "https://a.com".
Proof.
  split; [unfold valid_URL; vm_compute; by eexists|].
  split; [by vm_compute|]. split; [by vm_compute|]. discriminate.
Qed.

(** The same with a query that is only re-encoded. *)
Example hasTrackingParams_false_reencoded :
  has_tracking "https://a.com/?q=a%20b&flag" = Normal false
  /\ clean "https://a.com/?q=a%20b&flag" = Normal "https://a.com/?q=a+b&flag=".
Proof. split; by vm_compute. Qed.

Lemma hasTrackingParams_spec_witness :
  exists b,
    has_tracking "https://a.com/?utm_source=x&keep=1" = Normal b
    /\ (b = true <-> Exists tracked [(bytes_of "utm_source", bytes_of "x");
                                     (bytes_of "keep", bytes_of "1")])
    /\ (b = true <-> clean "https://a.com/?utm_source=x&keep=1"
                     <> Normal "https://a.com/?utm_source=x&keep=1")
    /\ (b = true -> clean "https://a.com/?utm_source=x&keep=1"
                    <> Normal "https://a.com/?utm_source=x&keep=1").
Proof.
  apply (@hasTrackingParams_spec special_url_parser special_url_parser_laws
           "https://a.com/?utm_source=x&keep=1"
           (mkURL (bytes_of "https") [] [] (Some (bytes_of "a.com")) None
                  (ListPath [[]]) (Some (bytes_of "utm_source=x&keep=1")) None)).
  vm_compute. reflexivity.
Defined.

Example cleanTrackingParams_examples :
  clean "  http:\\a.b.example\x\..\y?q='&gclid=1  " = Normal "http://a.b.example/y?q=%27"
  /\ clean "https://a.com/?a=%FF&utm_id=3" = Normal "https://a.com/?a=%EF%BF%BD"
  /\ clean "https://a.com/?utm%5Fsource=1" = Normal "https://a.com/"
  /\ clean "https://a.com/?UTM_SOURCE=1" = Normal "https://a.com/?UTM_SOURCE=1"
  /\ clean "mailto" = Normal "mailto".
Proof. repeat split; by vm_compute. Qed.

(** * Further properties *)

(** ** utils/storage.ts *)

Section Storage.

Implicit Types (env : StorageEnv) (key value : string) (room : N)
  (items mem : gmap string string).

Lemma probe_items room items :
  isLocalStorageAvailable (LS_items room items)
  = ((32 <=? room)%N,
     LS_items room (if (32 <=? room)%N then delete STORAGE_TEST_KEY items else items)).
Proof.
  unfold isLocalStorageAvailable, LS_setItem.
  change (entry_size "__storage_test__" "__storage_test__") with 32%N.
  destruct (32 <=? room)%N; [|reflexivity].
  cbn [LS_removeItem]. by rewrite delete_insert_eq.
Qed.

Lemma storage_works_throws mem : storage_works (mkEnv LS_throws mem) = false.
Proof. reflexivity. Qed.

Lemma storage_works_items room items mem :
  storage_works (mkEnv (LS_items room items) mem) = (32 <=? room)%N.
Proof. unfold storage_works. cbn [localStorage]. by rewrite probe_items. Qed.

Lemma LS_accepts_throws key value : LS_accepts LS_throws key value = false.
Proof. reflexivity. Qed.

Lemma LS_accepts_items room items key value :
  LS_accepts (LS_items room items) key value = (entry_size key value <=? room)%N.
Proof. unfold LS_accepts, LS_setItem. by destruct (entry_size key value <=? room)%N. Qed.

Lemma safeGetItem_throws key mem :
  safeGetItem key (mkEnv LS_throws mem) = (mem !! key, mkEnv LS_throws mem).
Proof. reflexivity. Qed.

Lemma safeGetItem_items key room items mem :
  safeGetItem key (mkEnv (LS_items room items) mem)
  = (if (32 <=? room)%N then delete STORAGE_TEST_KEY items !! key else mem !! key,
     mkEnv (LS_items room (if (32 <=? room)%N then delete STORAGE_TEST_KEY items
                           else items)) mem).
Proof.
  unfold safeGetItem. cbn [localStorage memoryStorage]. rewrite probe_items.
  by destruct (32 <=? room)%N.
Qed.

Lemma safeSetItem_throws key value mem :
  safeSetItem key value (mkEnv LS_throws mem)
  = (false, mkEnv LS_throws (<[key := value]> mem)).
Proof. reflexivity. Qed.

Lemma safeSetItem_items key value room items mem :
  safeSetItem key value (mkEnv (LS_items room items) mem)
  = ((32 <=? room)%N && (entry_size key value <=? room)%N,
     mkEnv (LS_items room
              (if (32 <=? room)%N
               then if (entry_size key value <=? room)%N
                    then <[key := value]> (delete STORAGE_TEST_KEY items)
                    else delete STORAGE_TEST_KEY items
               else items))
           (if (32 <=? room)%N && (entry_size key value <=? room)%N
            then mem else <[key := value]> mem)).
Proof.
  unfold safeSetItem. cbn [localStorage memoryStorage]. rewrite probe_items.
  destruct (32 <=? room)%N; [|reflexivity].
  unfold LS_setItem. by destruct (entry_size key value <=? room)%N.
Qed.

Lemma safeRemoveItem_throws key mem :
  safeRemoveItem key (mkEnv LS_throws mem) = mkEnv LS_throws (delete key mem).
Proof. reflexivity. Qed.

Lemma safeRemoveItem_items key room items mem :
  safeRemoveItem key (mkEnv (LS_items room items) mem)
  = mkEnv (LS_items room (if (32 <=? room)%N
                          then delete key (delete STORAGE_TEST_KEY items) else items))
          (delete key mem).
Proof.
  unfold safeRemoveItem. cbn [localStorage memoryStorage]. rewrite probe_items.
  by destruct (32 <=? room)%N.
Qed.


End Storage.

(** Rewrites the safe operations on a store of known kind, then splits on
    whether the probe and the writes fit. *)
Ltac storage_cases env :=
  destruct env as [[|?room ?items] ?mem];
  unfold refused in *;
  cbn [localStorage memoryStorage] in *;
  rewrite ?storage_works_throws, ?storage_works_items,
          ?LS_accepts_throws, ?LS_accepts_items in *;
  repeat (progress (rewrite ?safeSetItem_throws, ?safeSetItem_items,
                      ?safeRemoveItem_throws, ?safeRemoveItem_items,
                      ?safeGetItem_throws, ?safeGetItem_items,
                      ?storage_works_throws, ?storage_works_items;
                    cbn [fst snd localStorage memoryStorage]));
  repeat match goal with
         | H : context [N.leb _ _] |- _ => revert H
         end;
  repeat match goal with
         | |- context [N.leb ?a ?b] => destruct (N.leb a b) eqn:?
         end;
  cbn [andb negb orb]; intros.

(** Decides equations between lookups in inserts and deletes. *)
Ltac map_lookup :=
  repeat (rewrite lookup_delete || rewrite lookup_insert || rewrite lookup_empty);
  repeat case_decide; subst; try congruence; try done.

Section StorageProps.

Implicit Types (env : StorageEnv) (key value : string) (room : N)
  (items mem : gmap string string).





Lemma get_after_remove env key :
  (safeGetItem key (safeRemoveItem key env)).1 = None.
Proof. storage_cases env; by map_lookup. Qed.

Lemma get_other_after_remove env key key' :
  key' <> key -> (safeGetItem key' (safeRemoveItem key env)).1 = (safeGetItem key' env).1.
Proof. intros Hne. storage_cases env; by map_lookup. Qed.







(** X2: on a working [localStorage] the probe key cannot hold a value: what
    is written under it is not read back, and every read removes an entry
    that some other code stored under it. *)
Theorem storage_test_key_lost room items mem key value :
  storage_works (mkEnv (LS_items room items) mem) = true ->
  (safeGetItem STORAGE_TEST_KEY
     (safeSetItem STORAGE_TEST_KEY value (mkEnv (LS_items room items) mem)).2).1 = None
  /\ localStorage (safeGetItem key (mkEnv (LS_items room items) mem)).2
     = LS_items room (delete STORAGE_TEST_KEY items).
Proof.
  rewrite storage_works_items. intros Hprobe.
  rewrite safeSetItem_items. cbn [snd]. rewrite !safeGetItem_items. cbn [fst snd].
  rewrite Hprobe. split; [|done].
  destruct (entry_size STORAGE_TEST_KEY value <=? room)%N; by map_lookup.
Qed.



(** X5: after [safeRemoveItem] the key reads as absent, whatever the
    store; the in-memory entry is removed even when [localStorage] works. *)
Theorem safeRemoveItem_safeGetItem env key :
  (safeGetItem key (safeRemoveItem key env)).1 = None
  /\ memoryStorage (safeRemoveItem key env) !! key = None.
Proof.
  split; [apply get_after_remove|]. storage_cases env; by map_lookup.
Qed.











(** X8: after [clearAllStorage] the theme reads as ['system'] and the
    disclaimer as not confirmed, whatever was stored and wherever. *)
Theorem clearAllStorage_resets env :
  (getThemePreference (clearAllStorage env)).1 = "system"
  /\ (isDisclaimerConfirmed (clearAllStorage env)).1 = false.
Proof.
  unfold clearAllStorage. cbn [fold_left].
  assert (Htheme : (safeGetItem THEME_PREFERENCE
            (safeRemoveItem DISCLAIMER_CONFIRMED (safeRemoveItem THEME_PREFERENCE env))).1
            = None).
  { rewrite get_other_after_remove by discriminate. apply get_after_remove. }
  pose proof (get_after_remove (safeRemoveItem THEME_PREFERENCE env)
                DISCLAIMER_CONFIRMED) as Hdisc.
  unfold getThemePreference, isDisclaimerConfirmed.
  destruct (safeGetItem THEME_PREFERENCE _) as [v env']. simpl in Htheme. subst v.
  destruct (safeGetItem DISCLAIMER_CONFIRMED _) as [v' env'']. simpl in Hdisc. subst v'.
  done.
Qed.

End StorageProps.


Lemma storage_test_key_lost_witness :
  localStorage (safeGetItem "k"
                  (mkEnv (LS_items 5242880 {[ STORAGE_TEST_KEY := "x" ]}) ∅)).2
  = LS_items 5242880 (delete STORAGE_TEST_KEY {[ STORAGE_TEST_KEY := "x" ]}).
Proof.
  apply (storage_test_key_lost 5242880 {[ STORAGE_TEST_KEY := "x" ]} ∅ "k" "v").
  reflexivity.
Defined.




(** ** utils/dataLoader.ts *)

Section Validation.

Implicit Types (v : JSValue) (site data config : JSON) (r : ValidationResult).

Lemma is_string_spec v : is_string v = true <-> exists s, v = Some (JString s).
Proof.
  unfold is_string. rewrite bool_decide_eq_true. split.
  - destruct v as [[| | | s | |]|]; simpl; try discriminate. by exists s.
  - by intros [s ->].
Qed.

Lemma is_string_false v : is_string v = false <-> ~ exists s, v = Some (JString s).
Proof. rewrite <- is_string_spec. by destruct (is_string v). Qed.

Lemma object_check v :
  js_not v || negb (bool_decide (js_typeof v = T_object)) = false
  <-> exists j, v = Some j /\ ((exists props, j = JObject props) \/ exists l, j = JArray l).
Proof.
  split.
  - destruct v as [[| | | | l | props]|]; simpl; try discriminate; eauto.
    + by destruct b.
    + by destruct (Z.eqb n 0).
    + by destruct (str_falsy s).
  - intros (j & -> & [[props ->]|[l ->]]); reflexivity.
Qed.

Lemma js_get_array l k : js_get (Some (JArray l)) k = None.
Proof. reflexivity. Qed.

Lemma check_string_fields_spec obj fields :
  match check_string_fields obj fields with
  | None => forall f, f ∈ fields -> is_string (js_get obj f) = true
  | Some r =>
      exists f, f ∈ fields /\ is_string (js_get obj f) = false
                /\ r = invalid ("字段 " +:+ f +:+ " 必须是字符串")
  end.
Proof.
  induction fields as [|f fields IH]; simpl.
  - intros f Hf. by apply elem_of_nil in Hf.
  - destruct (is_string (js_get obj f)) eqn:Hf; simpl.
    + destruct (check_string_fields obj fields) as [r|].
      * destruct IH as (g & Hg & Hgs & ->). exists g. split; [by right | done].
      * intros g Hg. apply elem_of_cons in Hg as [->|Hg]; [done | by apply IH].
    + exists f. split; [left | done].
Qed.

Lemma validateSiteMetadata_cases v :
  validateSiteMetadata v = is_valid \/ has_message (validateSiteMetadata v).
Proof.
  unfold validateSiteMetadata, has_message.
  repeat case_match; try (by left); right; try (eexists; split; [reflexivity | done]).
  pose proof (check_string_fields_spec v ["title"; "cover"; "url"; "description"]) as Hf.
  match goal with H : check_string_fields _ _ = Some _ |- _ => rewrite H in Hf end.
  destruct Hf as (f & _ & _ & ->). eexists; split; [reflexivity | done].
Qed.

Lemma validateSiteConfig_cases v :
  validateSiteConfig v = is_valid \/ has_message (validateSiteConfig v).
Proof.
  unfold validateSiteConfig, has_message.
  repeat case_match; try (by left); right; eexists; (split; [reflexivity | done]).
Qed.

Lemma contentType_check v :
  negb (is_undefined v) && negb (is_the_string v "text")
    && negb (is_the_string v "file") = false
  <-> v = None \/ v = Some (JString "text") \/ v = Some (JString "file").
Proof.
  destruct v as [[| | | ct | |]|]; cbn [is_undefined is_the_string negb andb];
    try (split; [discriminate | intros [[=]|[[=]|[=]]]]); [|tauto].
  destruct (bool_decide (ct = "text")) eqn:H1; cbn [negb andb].
  { apply bool_decide_eq_true in H1 as ->. tauto. }
  destruct (bool_decide (ct = "file")) eqn:H2; cbn [negb andb].
  { apply bool_decide_eq_true in H2 as ->. tauto. }
  apply bool_decide_eq_false in H1, H2.
  split; [discriminate | intros [[=]|[[=]|[=]]]; congruence].
Qed.

Lemma content_check v :
  negb (is_undefined v) && negb (is_string v) = false
  <-> v = None \/ exists s, v = Some (JString s).
Proof.
  destruct v as [c|]; cbn [is_undefined negb andb]; [|tauto].
  destruct (is_string (Some c)) eqn:Hc; cbn [negb].
  - apply is_string_spec in Hc. tauto.
  - apply is_string_false in Hc. split; [discriminate | intros [[=]|?]; tauto].
Qed.

Lemma tags_check ts :
  forallb (fun tag => is_string (Some tag)) ts = true
  <-> Forall (fun t => exists s, t = JString s) ts.
Proof.
  rewrite forallb_forall, Forall_forall. split; intros H t Ht.
  - apply list_elem_of_In, H, is_string_spec in Ht as [s [= ->]]. by exists s.
  - apply list_elem_of_In, H in Ht as [s ->]. apply is_string_spec. by exists s.
Qed.

Lemma number_check v :
  bool_decide (js_typeof v = T_number) = true <-> exists n, v = Some (JNumber n).
Proof.
  rewrite bool_decide_eq_true. split.
  - destruct v as [[| | n | | |]|]; try discriminate. by exists n.
  - by intros [n ->].
Qed.

Lemma validateSiteMetadata_conforms site :
  validateSiteMetadata (Some site) = is_valid <-> conforms_SiteMetadata site.
Proof.
  unfold validateSiteMetadata, conforms_SiteMetadata.
  pose proof (check_string_fields_spec (Some site)
                ["title"; "cover"; "url"; "description"]) as Hfields.
  pose proof (number_check (js_get (Some site) "id")) as Hid.
  pose proof (content_check (js_get (Some site) "content")) as Hcontent.
  pose proof (contentType_check (js_get (Some site) "contentType")) as Htype.
  destruct (js_not (Some site) || negb (bool_decide (js_typeof (Some site) = T_object)))
    eqn:Hobj.
  { split; [discriminate|]. intros ([props ->] & _). discriminate Hobj. }
  apply object_check in Hobj as (j & [= <-] & Hshape).
  destruct (bool_decide (js_typeof (js_get (Some site) "id") = T_number));
    cbn [negb].
  2:{ split; [discriminate|]. intros (_ & Hn & _). apply Hid in Hn. discriminate Hn. }
  assert (Hid' : exists n, js_get (Some site) "id" = Some (JNumber n)) by by apply Hid.
  assert (Hprops : exists props, site = JObject props).
  { destruct Hshape as [?|[l ->]]; [done|]. destruct Hid' as [n Hn]. discriminate Hn. }
  destruct (check_string_fields (Some site) ["title"; "cover"; "url"; "description"])
    as [r|].
  { destruct Hfields as (f & Hf & Hfs & ->).
    split; [discriminate|]. intros (_ & _ & Hall & _).
    apply is_string_false in Hfs. destruct Hfs. by apply Hall. }
  assert (Hstrings : forall f, f ∈ ["title"; "cover"; "url"; "description"] ->
            exists s, js_get (Some site) f = Some (JString s)).
  { intros f Hf. by apply is_string_spec, Hfields. }
  destruct (js_get (Some site) "tags") as [[| | | | ts |]|];
    try (split; [discriminate|]; intros (_ & _ & _ & (ts' & [=] & _) & _)).
  pose proof (tags_check ts) as Htags.
  destruct (forallb (fun tag => is_string (Some tag)) ts); cbn [negb].
  2:{ split; [discriminate|]. intros (_ & _ & _ & (ts' & [= <-] & Hall) & _).
      apply Htags in Hall. discriminate Hall. }
  assert (Hts : Forall (fun t => exists s, t = JString s) ts) by by apply Htags.
  destruct (negb (is_undefined (js_get (Some site) "content"))
            && negb (is_string (js_get (Some site) "content"))).
  { split; [discriminate|]. intros (_ & _ & _ & _ & Hc & _).
    apply Hcontent in Hc. discriminate Hc. }
  destruct (negb (is_undefined (js_get (Some site) "contentType"))
            && negb (is_the_string (js_get (Some site) "contentType") "text")
            && negb (is_the_string (js_get (Some site) "contentType") "file")).
  { split; [discriminate|]. intros (_ & _ & _ & _ & _ & Ht).
    apply Htype in Ht. discriminate Ht. }
  split; [intros _ | done].
  repeat split; eauto. all: tauto.
Qed.

Lemma validateSiteConfig_conforms config :
  validateSiteConfig (Some config) = is_valid <-> conforms_SiteConfig config.
Proof.
  unfold validateSiteConfig, conforms_SiteConfig.
  pose proof (is_string_spec (js_get (Some config) "siteTitle")) as Htitle.
  pose proof (is_string_spec (js_get (Some config) "adminContact")) as Hadmin.
  destruct (js_not (Some config)
            || negb (bool_decide (js_typeof (Some config) = T_object))) eqn:Hobj.
  { split; [discriminate|]. intros ([props ->] & _). discriminate Hobj. }
  apply object_check in Hobj as (j & [= <-] & Hshape).
  destruct (is_string (js_get (Some config) "siteTitle")); cbn [negb].
  2:{ split; [discriminate|]. intros (_ & Hs & _). apply Htitle in Hs. discriminate Hs. }
  destruct (is_string (js_get (Some config) "adminContact")); cbn [negb].
  2:{ split; [discriminate|]. intros (_ & _ & Hs). apply Hadmin in Hs. discriminate Hs. }
  split; [intros _ | done]. repeat split; try tauto.
  destruct Hshape as [?|[l ->]]; [done|].
  destruct Htitle as [[s Hs] _]; [done | discriminate Hs].
Qed.

Lemma valid_iff_is_valid_site v :
  valid (validateSiteMetadata v) = true <-> validateSiteMetadata v = is_valid.
Proof.
  destruct (validateSiteMetadata_cases v) as [->|(msg & -> & _)]; [done|].
  split; discriminate.
Qed.

Lemma valid_iff_is_valid_config v :
  valid (validateSiteConfig v) = true <-> validateSiteConfig v = is_valid.
Proof.
  destruct (validateSiteConfig_cases v) as [->|(msg & -> & _)]; [done|].
  split; discriminate.
Qed.

(** The loop stops at the first site that fails. *)
Lemma validate_sites_from_first_failure i l1 s l2 msg :
  Forall (fun s' => validateSiteMetadata (Some s') = is_valid) l1 ->
  validateSiteMetadata (Some s) = invalid msg ->
  validate_sites_from i (l1 ++ s :: l2)
  = invalid ("网站 " +:+ pretty (i + length l1)%nat +:+ " 验证失败: " +:+ msg).
Proof.
  intros Hl1 Hs. revert i. induction Hl1 as [|s' l1 Hs' _ IH]; intros i.
  - cbn [app validate_sites_from length]. rewrite Hs, Nat.add_0_r. reflexivity.
  - cbn [app validate_sites_from length]. rewrite Hs'. cbn [valid is_valid negb].
    rewrite IH. do 4 f_equal. lia.
Qed.

Lemma validate_sites_from_valid i sites :
  validate_sites_from i sites = is_valid
  <-> Forall (fun s => validateSiteMetadata (Some s) = is_valid) sites.
Proof.
  revert i. induction sites as [|s sites IH]; intros i; cbn [validate_sites_from].
  - split; [constructor | done].
  - destruct (validateSiteMetadata_cases (Some s)) as [Hs|(msg & Hs & _)]; rewrite Hs.
    + cbn [valid is_valid negb]. rewrite IH. split; [by constructor|].
      by inversion 1.
    + cbn [valid invalid negb]. split; [discriminate|].
      inversion 1 as [|? ? Hs' _]; subst. rewrite Hs in Hs'. discriminate Hs'.
Qed.

Lemma validate_sites_from_cases i sites :
  validate_sites_from i sites = is_valid \/ has_message (validate_sites_from i sites).
Proof.
  revert i. induction sites as [|s sites IH]; intros i; cbn [validate_sites_from].
  - by left.
  - destruct (validateSiteMetadata_cases (Some s)) as [Hs|(msg & Hs & _)]; rewrite Hs.
    + apply IH.
    + right. eexists. split; [reflexivity | done].
Qed.

Lemma validateSiteDataFile_cases v :
  validateSiteDataFile v = is_valid \/ has_message (validateSiteDataFile v).
Proof.
  unfold validateSiteDataFile.
  destruct (js_not v || negb (bool_decide (js_typeof v = T_object))).
  { right. eexists. split; [reflexivity | done]. }
  destruct (validateSiteConfig_cases (js_get v "config")) as [->|(msg & -> & _)].
  2:{ right. eexists. split; [reflexivity | done]. }
  cbn [valid is_valid negb].
  destruct (js_get v "sites") as [[| | | | sites |]|];
    try (right; eexists; split; [reflexivity | done]).
  apply validate_sites_from_cases.
Qed.

Lemma validateSiteDataFile_conforms data :
  validateSiteDataFile (Some data) = is_valid <-> conforms_SiteDataFile data.
Proof.
  unfold validateSiteDataFile, conforms_SiteDataFile.
  destruct (js_not (Some data) || negb (bool_decide (js_typeof (Some data) = T_object)))
    eqn:Hobj.
  { split; [discriminate|]. intros (config & sites & Hc & _).
    destruct data; try discriminate Hc. discriminate Hobj. }
  destruct (js_get (Some data) "config") as [config|] eqn:Hconfig.
  2:{ split; [discriminate|]. by intros (config & sites & [=] & _). }
  destruct (validateSiteConfig_cases (Some config)) as [Hc|(msg & Hc & _)]; rewrite Hc.
  2:{ split; [discriminate|]. intros (config' & sites & [= <-] & Hconf & _).
      apply validateSiteConfig_conforms in Hconf. rewrite Hc in Hconf.
      discriminate Hconf. }
  cbn [valid is_valid negb].
  destruct (js_get (Some data) "sites") as [[| | | | sites |]|];
    try (split; [discriminate|]; by intros (config' & sites' & _ & _ & [=] & _)).
  rewrite validate_sites_from_valid.
  assert (Hall : Forall (fun s => validateSiteMetadata (Some s) = is_valid) sites
                 <-> Forall conforms_SiteMetadata sites).
  { apply Forall_iff. intros s. apply validateSiteMetadata_conforms. }
  rewrite Hall. split.
  - intros Hs. exists config, sites. repeat split; try done.
    all: by apply validateSiteConfig_conforms in Hc as (? & ? & ?).
  - by intros (config' & sites' & [= <-] & _ & [= <-] & Hs).
Qed.

End Validation.

Section Loader.

Implicit Types (fetch : string -> FetchOutcome) (path : string) (data : JSON).

(** X9: [validateSiteMetadata] accepts exactly the values of the shape
    that the [SiteMetadata] interface describes: an object with a numeric
    [id], string [title], [cover], [url] and [description], an array of
    strings as [tags], [content] absent or a string, and [contentType]
    absent, ['text'] or ['file']. *)
Theorem validateSiteMetadata_accepts_interface site :
  valid (validateSiteMetadata (Some site)) = true <-> conforms_SiteMetadata site.
Proof.
  rewrite valid_iff_is_valid_site. apply validateSiteMetadata_conforms.
Qed.

(** X10: [validateSiteDataFile] accepts exactly the documents of the shape
    of [SiteDataFile]: a conforming [config] and an array [sites] of
    conforming sites. *)
Theorem validateSiteDataFile_accepts_interface data :
  valid (validateSiteDataFile (Some data)) = true <-> conforms_SiteDataFile data.
Proof.
  rewrite <- validateSiteDataFile_conforms.
  destruct (validateSiteDataFile_cases (Some data)) as [->|(msg & -> & _)]; [done|].
  split; discriminate.
Qed.

(** X11: with a valid [config], the validation reports the first site that
    fails, by its index in [sites] and with that site's own message. *)
Theorem validateSiteDataFile_first_failure data config l1 s l2 msg :
  js_get (Some data) "config" = Some config ->
  conforms_SiteConfig config ->
  js_get (Some data) "sites" = Some (JArray (l1 ++ s :: l2)) ->
  Forall conforms_SiteMetadata l1 ->
  validateSiteMetadata (Some s) = invalid msg ->
  validateSiteDataFile (Some data)
  = invalid ("网站 " +:+ pretty (length l1) +:+ " 验证失败: " +:+ msg).
Proof.
  intros Hconfig Hconf Hsites Hl1 Hs. unfold validateSiteDataFile.
  assert (Hobj : exists props, data = JObject props).
  { destruct data; try discriminate Hconfig. by eexists. }
  destruct Hobj as [props ->].
  cbn [js_not js_typeof orb negb]. rewrite bool_decide_eq_true_2 by done. cbn [negb].
  rewrite Hconfig, Hsites.
  apply validateSiteConfig_conforms in Hconf as ->. cbn [valid is_valid negb].
  apply (validate_sites_from_first_failure 0); [|done].
  eapply Forall_impl; [exact Hl1|]. intros s'. apply validateSiteMetadata_conforms.
Qed.


(** X13: [loadSiteData] succeeds exactly when the request resolves with an
    [ok] response whose body parses to a document of the shape of
    [SiteDataFile], and then it returns that document. *)
Theorem loadSiteData_success_iff fetch path data :
  loadSiteData fetch path = LoadSuccess data
  <-> exists response,
        fetch path = FetchResolves response
        /\ ok response = true
        /\ json response = JsonResolves data
        /\ conforms_SiteDataFile data.
Proof.
  unfold loadSiteData. split.
  - destruct (fetch path) as [err|response]; [discriminate|].
    destruct (ok response) eqn:Hok; cbn [negb]; [|discriminate].
    destruct (json response) as [d|] eqn:Hjson; [|discriminate].
    destruct (validateSiteDataFile_cases (Some d)) as [Hv|(msg & Hv & _)];
      rewrite Hv; [|discriminate].
    intros [= ->]. exists response. split; [done|]. split; [done|]. split; [done|].
    by apply validateSiteDataFile_conforms.
  - intros (response & -> & -> & -> & Hconf).
    apply validateSiteDataFile_conforms in Hconf as ->. reflexivity.
Qed.

(** X14: the text shown for a failed load is one of three fixed strings;
    for a validation failure it names the field ['data'] and not what the
    validator found. *)
Theorem getErrorMessage_of_failure fetch path e :
  loadSiteData fetch path = LoadFailure e ->
  getErrorMessage e
  = match type e with
    | NETWORK_ERROR => "数据加载失败，请检查网络连接"
    | PARSE_ERROR => "数据格式错误，请联系管理员"
    | VALIDATION_ERROR => "数据验证失败: data"
    end.
Proof.
  unfold loadSiteData. intros Hload.
  destruct (fetch path) as [err|response]; [by injection Hload as <-|].
  destruct (ok response); cbn [negb] in Hload; [|by injection Hload as <-].
  destruct (json response) as [data|]; [|by injection Hload as <-].
  destruct (negb (valid (validateSiteDataFile (Some data)))); [|discriminate Hload].
  by injection Hload as <-.
Qed.

End Loader.

Lemma validateSiteDataFile_first_failure_witness :
  validateSiteDataFile (Some data_bad_site)
  = invalid "网站 1 验证失败: 网站数据必须是对象".
Proof.
  apply (validateSiteDataFile_first_failure data_bad_site json_config
           [json_site_a] (JNumber 1) [] "网站数据必须是对象").
  - reflexivity.
  - unfold conforms_SiteConfig, json_config. repeat split; by eexists.
  - reflexivity.
  - constructor; [|constructor].
    apply validateSiteMetadata_conforms. vm_compute. reflexivity.
  - vm_compute. reflexivity.
Defined.


Lemma getErrorMessage_of_failure_witness :
  getErrorMessage (mkError VALIDATION_ERROR (Some "data")
                           "网站 1 验证失败: 网站数据必须是对象")
  = "数据验证失败: data".
Proof.
  apply (getErrorMessage_of_failure (fetch_ok data_bad_site) DEFAULT_DATA_PATH).
  vm_compute. reflexivity.
Defined.

(** ** [extractTags], the grid and the home page *)

Section Home.

Implicit Types (sites : list SiteMetadata) (query : string).

Lemma Set_add_first_appearances l t :
  Set_add t (first_appearances l) = first_appearances (l ++ [t]).
Proof.
  unfold Set_add. rewrite first_appearances_snoc.
  case_bool_decide as H; rewrite elem_of_first_appearances in H;
    destruct (decide (t ∈ l)); try done.
  by rewrite app_nil_r.
Qed.

Lemma extractTags_from l sites :
  fold_left (fun tagSet site =>
    match tags site with
    | t :: _ => Set_add t tagSet
    | [] => tagSet
    end) sites (first_appearances l)
  = first_appearances (l ++ omap primaryTag sites).
Proof.
  revert l. induction sites as [|s sites IH]; intros l; cbn [fold_left].
  - simpl. by rewrite app_nil_r.
  - simpl. unfold primaryTag at 1. destruct (tags s) as [|t ts].
    + apply IH.
    + rewrite Set_add_first_appearances, IH, <- app_assoc. reflexivity.
Qed.

Lemma extractTags_first_appearances sites :
  extractTags sites = first_appearances (omap primaryTag sites).
Proof. apply (extractTags_from [] sites). Qed.

Lemma spec_group_keys sites :
  Map_keys (spec_group sites) = first_appearances (omap primaryTag sites).
Proof.
  unfold Map_keys, spec_group. rewrite <- list_fmap_compose. apply list_fmap_id.
Qed.

Lemma groupedSites_grouped sites : groupedSites sites true = Normal (spec_group sites).
Proof. unfold groupedSites. simpl. apply (forEach_group_step [] sites). Qed.

(** X15: the tags that [extractTags] returns for the navigator are the
    keys of the grouped grid, in the same order: the distinct first tags
    of the sites in order of first appearance. A tag that is never first
    in a site's [tags] is not among them. *)
Theorem extractTags_group_keys sites :
  (exists groups, groupedSites sites true = Normal groups
                  /\ extractTags sites = Map_keys groups)
  /\ NoDup (extractTags sites)
  /\ (forall t, t ∈ extractTags sites
                <-> exists site ts, site ∈ sites /\ tags site = t :: ts).
Proof.
  rewrite extractTags_first_appearances. split; [|split].
  - exists (spec_group sites). split; [apply groupedSites_grouped|].
    by rewrite spec_group_keys.
  - apply NoDup_first_appearances.
  - intros t. rewrite elem_of_first_appearances, list_elem_of_omap. split.
    + intros (site & Hin & Hp). unfold primaryTag in Hp.
      destruct (tags site) as [|t' ts] eqn:E; [discriminate|].
      injection Hp as ->. eauto.
    + intros (site & ts & Hin & Ht). exists site. split; [done|].
      unfold primaryTag. by rewrite Ht.
Qed.

Lemma filter_primary_in_nil sites : filter (primary_in []) sites = [].
Proof.
  induction sites as [|s sites IH]; [done|].
  rewrite filter_cons_False; [done|].
  unfold primary_in. destruct (primaryTag s); [apply not_elem_of_nil | tauto].
Qed.

Ltac solve_primary Hp :=
  unfold primary_in, has_primary; rewrite ?Hp; cbn beta iota;
  rewrite ?elem_of_cons; first [done | tauto | congruence | naive_solver].

Lemma filter_primary_in_cons k ks sites :
  k ∉ ks ->
  filter (primary_in (k :: ks)) sites
  ≡ₚ filter (has_primary k) sites ++ filter (primary_in ks) sites.
Proof.
  intros Hk. induction sites as [|s sites IH]; [done|].
  destruct (primaryTag s) as [t|] eqn:Hp.
  - destruct (decide (t = k)) as [->|Hne].
    + rewrite (filter_cons_True (primary_in (k :: ks))) by solve_primary Hp.
      rewrite (filter_cons_True (has_primary k)) by done.
      rewrite (filter_cons_False (primary_in ks)) by solve_primary Hp.
      simpl. by rewrite IH.
    + rewrite (filter_cons_False (has_primary k)) by solve_primary Hp.
      destruct (decide (t ∈ ks)) as [Hin|Hnin].
      * rewrite (filter_cons_True (primary_in (k :: ks))) by solve_primary Hp.
        rewrite (filter_cons_True (primary_in ks)) by solve_primary Hp.
        rewrite IH. apply Permutation_middle.
      * rewrite (filter_cons_False (primary_in (k :: ks))) by solve_primary Hp.
        rewrite (filter_cons_False (primary_in ks)) by solve_primary Hp.
        exact IH.
  - rewrite (filter_cons_False (primary_in (k :: ks))) by solve_primary Hp.
    rewrite (filter_cons_False (has_primary k)) by solve_primary Hp.
    rewrite (filter_cons_False (primary_in ks)) by solve_primary Hp.
    exact IH.
Qed.

Lemma concat_groups ks sites :
  NoDup ks ->
  concat (map (fun t => filter (has_primary t) sites) ks)
  ≡ₚ filter (primary_in ks) sites.
Proof.
  induction 1 as [|k ks Hk _ IH]; simpl.
  - by rewrite filter_primary_in_nil.
  - rewrite filter_primary_in_cons by done. by rewrite IH.
Qed.

Lemma filter_primary_in_all ks sites :
  (forall t, t ∈ omap primaryTag sites -> t ∈ ks) ->
  filter (primary_in ks) sites = filter (fun s => tags s <> []) sites.
Proof.
  induction sites as [|s sites IH]; intros Hks; [done|].
  assert (Hrest : filter (primary_in ks) sites = filter (fun s => tags s <> []) sites).
  { apply IH. intros t Ht. apply Hks. simpl. destruct (primaryTag s); [by right | done]. }
  destruct (tags s) as [|t ts] eqn:Ht.
  - rewrite (filter_cons_False (primary_in ks))
      by (unfold primary_in, primaryTag; rewrite Ht; tauto).
    rewrite (filter_cons_False (fun s => tags s <> [])) by (rewrite Ht; tauto).
    exact Hrest.
  - assert (Hp : primaryTag s = Some t) by (unfold primaryTag; by rewrite Ht).
    rewrite (filter_cons_True (primary_in ks)).
    2:{ unfold primary_in. rewrite Hp. apply Hks. simpl. rewrite Hp. left. }
    rewrite (filter_cons_True (fun s => tags s <> [])) by (by rewrite Ht).
    by rewrite Hrest.
Qed.

(** X16: the grouped grid shows each site that has a tag once, and no
    site without tags; the ungrouped grid shows every site, in the order
    given. *)
Theorem grid_cards_grouped sites :
  (exists cards, grid_cards sites true = Normal cards
                 /\ cards ≡ₚ filter (fun s => tags s <> []) sites)
  /\ grid_cards sites false = Normal sites.
Proof.
  split; [|reflexivity]. unfold grid_cards. rewrite groupedSites_grouped. cbn [cbind].
  eexists. split; [reflexivity|].
  unfold spec_group. rewrite <- list_fmap_compose.
  etransitivity; [apply (concat_groups _ sites), NoDup_first_appearances|].
  rewrite (filter_primary_in_all _ sites); [done|].
  intros t. by rewrite elem_of_first_appearances.
Qed.

Variable Fuse_search : list SiteMetadata -> string -> list SiteMetadata.

Lemma isSearching_shouldGroupByTag query :
  isSearching query = negb (shouldGroupByTag query).
Proof.
  unfold isSearching, shouldGroupByTag.
  destruct (js_trim query); [reflexivity|].
  rewrite bool_decide_eq_false_2 by discriminate. reflexivity.
Qed.

Lemma filteredSites_blank query sites :
  js_trim query = "" -> filteredSites Fuse_search query sites = sites.
Proof. intros H. unfold filteredSites, performSearch. by rewrite H. Qed.

(** X17: what the home page shows once the data is loaded. With a blank
    query it is the grouped grid of all sites, never the empty state; with
    any other query it is the ungrouped grid of the search results, or
    the empty state when there are none. *)
Theorem main_area_view query sites :
  main_area Fuse_search false None query sites
  = if bool_decide (js_trim query = "") then CardGrid sites true
    else match searchSites Fuse_search sites query with
         | [] => EmptyState
         | results => CardGrid results false
         end.
Proof.
  unfold main_area, showNoResults, hasResults.
  rewrite isSearching_shouldGroupByTag. unfold shouldGroupByTag.
  case_bool_decide as Hq; cbn [negb andb].
  - by rewrite filteredSites_blank.
  - unfold filteredSites, performSearch, searchSites.
    destruct (str_falsy (js_trim query)) eqn:Hf; [by apply str_falsy_empty in Hf|].
    destruct sites as [|s sites]; [reflexivity|]. cbn [length Nat.eqb].
    by destruct (Fuse_search (s :: sites) (js_trim query)).
Qed.

Lemma getTagAnchorId_inj : Inj (=) (=) getTagAnchorId.
Proof. intros a b H. unfold getTagAnchorId in H. cbn in H. by injection H. Qed.

(** X18: while the grid is grouped, each tag of the navigator has one
    section whose [id] is the anchor that [handleTagSelect] looks up, and
    no two sections share an [id]; while a search is active the grid has no
    such section. *)
Theorem tag_navigation_targets query sites :
  section_ids (filteredSites Fuse_search query sites) (shouldGroupByTag query)
  = Normal (if shouldGroupByTag query then map getTagAnchorId (allTags sites) else [])
  /\ NoDup (map getTagAnchorId (allTags sites)).
Proof.
  split.
  - unfold section_ids, shouldGroupByTag. case_bool_decide as Hq; [|reflexivity].
    rewrite filteredSites_blank by done. rewrite groupedSites_grouped. cbn [cbind].
    unfold allTags. rewrite extractTags_first_appearances, <- spec_group_keys.
    unfold Map_keys. by rewrite <- list_fmap_compose.
  - unfold allTags. rewrite extractTags_first_appearances.
    apply (NoDup_fmap_2 _), NoDup_first_appearances.
Qed.

End Home.

(** ** [loadData] *)

Lemma initial_state_conforming : conforming_state initial_state.
Proof.
  eexists _, []. split; [reflexivity|]. split.
  - unfold conforms_SiteConfig. repeat split; by eexists.
  - split; [reflexivity | constructor].
Qed.

Lemma loadData_conforming fetch st :
  conforming_state st -> conforming_state (loadData fetch st).
Proof.
  intros Hst. unfold loadData, loadData_resume.
  destruct (loadSiteData fetch DEFAULT_DATA_PATH) as [data|e] eqn:Hload; [|exact Hst].
  assert (Hconf : conforms_SiteDataFile data).
  { unfold loadSiteData in Hload.
    destruct (fetch DEFAULT_DATA_PATH) as [err|response]; [discriminate|].
    destruct (ok response); cbn [negb] in Hload; [|discriminate].
    destruct (json response) as [d|]; [|discriminate].
    destruct (validateSiteDataFile_cases (Some d)) as [Hv|(msg & Hv & _)];
      rewrite Hv in Hload; [|discriminate].
    injection Hload as <-. by apply validateSiteDataFile_conforms. }
  destruct Hconf as (config & sites' & Hc & Hcc & Hs & Hss).
  exists config, sites'. cbn [siteConfig sites loadData_begin]. done.
Qed.

(** X19: whatever the requests return, in whatever order loads and
    retries follow each other, [siteConfig] and [sites] hold values of
    their declared types: the defaults, or those of the last document that
    passed validation. *)
Theorem loadData_keeps_conforming (fetches : list (string -> FetchOutcome)) :
  conforming_state (fold_left (fun st fetch => loadData fetch st) fetches initial_state).
Proof.
  generalize initial_state_conforming. generalize initial_state.
  induction fetches as [|fetch fetches IH]; intros st Hst; [exact Hst|].
  cbn [fold_left]. apply IH. by apply loadData_conforming.
Qed.

(** ** composables/useTheme.ts *)

Section Theme.

Import UseTheme.

Implicit Types (w : World) (window : Window) (p : string).

Lemma next_theme_valid p : valid_theme (next_theme p).
Proof. unfold next_theme, valid_theme. repeat case_bool_decide; tauto. Qed.

Lemma next_theme_period p : valid_theme p -> next_theme (next_theme (next_theme p)) = p.
Proof. intros [-> | [-> | ->]]; reflexivity. Qed.

Lemma cycleTheme_setTheme w :
  cycleTheme w = setTheme (next_theme (themePreference (state w))) w.
Proof.
  unfold cycleTheme, next_theme. cbn [indexOf].
  repeat case_bool_decide; try congruence; reflexivity.
Qed.



(** X21: [cycleTheme] goes from light to dark, from dark to system and
    from anything else to light, so the preference is one of the three
    themes after it, a fourth call gives what the first gave, and three
    calls bring a valid preference back. *)
Theorem cycleTheme_order w :
  themePreference (state (cycleTheme w)) = next_theme (themePreference (state w))
  /\ valid_theme (themePreference (state (cycleTheme w)))
  /\ themePreference (state (cycleTheme (cycleTheme (cycleTheme (cycleTheme w)))))
     = themePreference (state (cycleTheme w))
  /\ (valid_theme (themePreference (state w)) ->
      themePreference (state (cycleTheme (cycleTheme (cycleTheme w))))
      = themePreference (state w)).
Proof.
  assert (Hstep : forall w', themePreference (state (cycleTheme w'))
                             = next_theme (themePreference (state w'))).
  { intros w'. by rewrite cycleTheme_setTheme. }
  split; [apply Hstep|]. split; [rewrite Hstep; apply next_theme_valid|]. split.
  - rewrite !Hstep. apply next_theme_period, next_theme_valid.
  - intros Hvalid. rewrite !Hstep. by apply next_theme_period.
Qed.








End Theme.

Lemma cycleTheme_order_witness :
  UseTheme.themePreference
    (UseTheme.state
       (UseTheme.cycleTheme (UseTheme.cycleTheme (UseTheme.cycleTheme
          (UseTheme.mkWorld (UseTheme.mkState "dark" true true true) env_fallback)))))
  = "dark".
Proof.
  apply (proj2 (proj2 (proj2 (cycleTheme_order
           (UseTheme.mkWorld (UseTheme.mkState "dark" true true true) env_fallback))))).
  unfold valid_theme. cbn. tauto.
Defined.




(** ** composables/useDisclaimer.ts *)

Section Disclaimer.

Import UseDisclaimer.

Implicit Types (w : World) (env : StorageEnv).



Lemma initDisclaimer_fresh w :
  isInitialized (state w) = false ->
  initDisclaimer w
  = mkWorld (mkState (isDisclaimerConfirmed (storage w)).1
                     (if (isDisclaimerConfirmed (storage w)).1
                      then isModalVisible (state w) else true)
                     true)
            (isDisclaimerConfirmed (storage w)).2.
Proof.
  intros Hinit. unfold initDisclaimer. rewrite Hinit.
  by destruct (isDisclaimerConfirmed (storage w)) as [[|] env'].
Qed.




(** X25: the first [initDisclaimer] of a page shows the modal exactly when
    the store does not hold the confirmation, and a later call changes
    nothing: a modal that was hidden is not shown again by it. *)
Theorem initDisclaimer_first_visit env actions :
  shouldShowDisclaimer (state (initDisclaimer (mkWorld initial env)))
  = negb (isDisclaimerConfirmed env).1
  /\ step Init (run actions (initDisclaimer (mkWorld initial env)))
     = run actions (initDisclaimer (mkWorld initial env)).
Proof.
  split.
  - rewrite initDisclaimer_fresh by done. unfold shouldShowDisclaimer.
    cbn [state storage hasConfirmed isModalVisible initial].
    by destruct (isDisclaimerConfirmed env).1.
  - assert (Hinit : isInitialized (state (run actions (initDisclaimer (mkWorld initial env))))
                    = true).
    { assert (H0 : isInitialized (state (initDisclaimer (mkWorld initial env))) = true)
        by by rewrite initDisclaimer_fresh.
      revert H0. generalize (initDisclaimer (mkWorld initial env)).
      unfold run. induction actions as [|a actions IH]; intros w Hw; [exact Hw|].
      cbn [fold_left]. apply IH. destruct a; cbn [step]; try done.
      unfold initDisclaimer. by rewrite Hw. }
    cbn [step]. unfold initDisclaimer at 1. by rewrite Hinit.
Qed.


End Disclaimer.

(** ** utils/urlUtils.ts: [openCleanUrl] *)

Section OpenCleanUrl.

Context {parser : URLParser} {laws : URLParserLaws parser}.

Variable window_open : string -> string -> string -> completion unit.

Lemma tracked_not_in_stripped l : ~ Exists tracked (strip_tracking l).
Proof.
  rewrite Exists_exists. intros (p & Hp & Ht).
  unfold strip_tracking in Hp. apply list_elem_of_filter in Hp as [Hp _]. done.
Qed.

(** X27: [openCleanUrl] ends with one call of [window.open], with
    [_blank] and [noopener,noreferrer], and its outcome is that of the
    call, a throw included. For a string that [new URL] accepts the URL
    handed over is the serialization of the parsed URL without the
    parameters of the deny-list: it parses back to a URL none of whose
    parameters is on the list. A string that [new URL] rejects, a relative
    link for one, is handed over as it is, tracking parameters and all. *)
Theorem openCleanUrl_opens_clean (url : string) :
  (forall u, basic_URL_parse (bytes_of url) = Some u ->
     openCleanUrl window_open url
     = window_open (str_of (URL_serialize (cleaned_record u)))
                   "_blank" "noopener,noreferrer"
     /\ basic_URL_parse (URL_serialize (cleaned_record u)) = Some (cleaned_record u)
     /\ ~ Exists tracked (URL_params (cleaned_record u))
     /\ hasTrackingParams (str_of (URL_serialize (cleaned_record u))) = Normal false)
  /\ (basic_URL_parse (bytes_of url) = None ->
      openCleanUrl window_open url = window_open url "_blank" "noopener,noreferrer").
Proof.
  unfold openCleanUrl. split.
  - intros u Hu. rewrite (cleanTrackingParams_valid url u Hu). cbn [cbind].
    assert (Hparse : basic_URL_parse (URL_serialize (cleaned_record u))
                     = Some (cleaned_record u)) by by eapply parse_cleaned.
    assert (Hnone : ~ Exists tracked (URL_params (cleaned_record u))).
    { rewrite URL_params_cleaned. apply tracked_not_in_stripped. }
    split; [done|]. split; [done|]. split; [done|].
    rewrite (hasTrackingParams_valid _ (cleaned_record u))
      by by rewrite bytes_of_str_of.
    by rewrite bool_decide_eq_false_2.
  - intros Hu. by rewrite (cleanTrackingParams_invalid url Hu).
Qed.

End OpenCleanUrl.

(** An absolute link is opened without its tracking parameters; a relative
    link, which [new URL] rejects, is opened with them; and when
    [window.open] throws, so does [openCleanUrl]. *)
Lemma openCleanUrl_opens_clean_witness :
  (forall window_open,
     @openCleanUrl special_url_parser window_open
                   "https://a.com/?utm_source=x&keep=1&ref=y"
     = window_open "https://a.com/?keep=1" "_blank" "noopener,noreferrer")
  /\ (forall window_open,
        @openCleanUrl special_url_parser window_open "/p?utm_source=x"
        = window_open "/p?utm_source=x" "_blank" "noopener,noreferrer")
  /\ @openCleanUrl special_url_parser
       (fun _ _ _ => Throw (DOMException "SyntaxError")) "https://a b/?utm_source=x"
     = Throw (DOMException "SyntaxError").
Proof.
  split; [|split].
  - intros window_open.
    rewrite (proj1 (proj1 (@openCleanUrl_opens_clean special_url_parser
                             special_url_parser_laws window_open
                             "https://a.com/?utm_source=x&keep=1&ref=y")
                      (mkURL (bytes_of "https") [] [] (Some (bytes_of "a.com")) None
                             (ListPath [[]])
                             (Some (bytes_of "utm_source=x&keep=1&ref=y")) None)
                      ltac:(vm_compute; reflexivity))).
    f_equal.
  - intros window_open.
    apply (proj2 (@openCleanUrl_opens_clean special_url_parser special_url_parser_laws
                    window_open "/p?utm_source=x")).
    vm_compute. reflexivity.
  - rewrite (proj2 (@openCleanUrl_opens_clean special_url_parser special_url_parser_laws
                      (fun _ _ _ => Throw (DOMException "SyntaxError"))
                      "https://a b/?utm_source=x")
               ltac:(vm_compute; reflexivity)).
    reflexivity.
Defined.
